(** * GD lightbox: a shallow embedding of [static/js/gd-lightbox.js]

    The script keeps one page-global [STATE] object, scans the document
    for [<a data-lightbox=...>] anchors, groups them by name and drives a
    single overlay through [open], [showIndex] and [hide].  This file
    embeds those functions as state transformers over a record that holds
    [STATE] together with the few pieces of the DOM the script touches,
    and proves the properties the specification states about them. *)

From stdpp Require Import base option list strings gmap fin_maps.
From Stdlib Require Import ZArith Lia.

Local Open Scope string_scope.
Local Open Scope Z_scope.
Local Open Scope list_scope.

(** ** JavaScript values

    Every value the script stores is a string or [null]; [option string]
    is that type, with [None] for [null] (and for [undefined], which the
    script only ever produces as an operand of [||]). *)

Module JS.

Definition truthy (v : option string) : bool :=
  match v with
  | Some s => negb (bool_decide (s = ""))
  | None => false
  end.

(** [a || b] *)
Definition or (a b : option string) : option string :=
  if truthy a then a else b.

(** [a || 'lit'] where the right operand is a string literal, so that the
    result is a string. *)
Definition or_str (a : option string) (lit : string) : string :=
  match or a (Some lit) with
  | Some s => s
  | None => lit
  end.

(** [ToString], applied by the DOM when a value is written to a string
    attribute such as [img.src]. *)
Definition ToString (v : option string) : string :=
  match v with
  | Some s => s
  | None => "null"
  end.

(** [Array.prototype.findIndex]: the index of the first element that
    satisfies [p], or [-1]. *)
Fixpoint findIndex_from {A : Type} (p : A → bool) (l : list A) (i : Z) : Z :=
  match l with
  | [] => -1
  | x :: l' => if p x then i else findIndex_from p l' (i + 1)
  end.

Definition findIndex {A : Type} (p : A → bool) (l : list A) : Z :=
  findIndex_from p l 0.

(** [arr[i]] for an integer [i]: [undefined] (here [None]) out of range. *)
Definition index {A : Type} (l : list A) (i : Z) : option A :=
  if bool_decide (i < 0) then None else l !! Z.to_nat i.

End JS.

(** ** The document

    An element carries its identity ([node]), its attributes and, for
    [querySelector('img')], the attributes of its descendant [img]
    elements in tree order.  A document is the sequence of its [a]
    elements in tree order. *)

Record Element := {
  node : nat;
  attrs : gmap string string;
  imgs : list (gmap string string);
}.

Global Instance Element_eq_dec : EqDecision Element.
Proof. solve_decision. Defined.

Definition getAttribute (a : Element) (name : string) : option string :=
  attrs a !! name.

(** [a.querySelector('img')?.getAttribute('alt')] *)
Definition img_alt_of (a : Element) : option string :=
  match imgs a with
  | [] => None
  | im :: _ => im !! "alt"
  end.

(** [qsa('a[data-lightbox]')] *)
Definition qsa (doc : list Element) : list Element :=
  filter (λ a, is_Some (getAttribute a "data-lightbox")) doc.

(** [DOMTokenList]: [classList.contains], [.add], [.remove]. *)
Module classList.
Definition contains (l : list string) (tok : string) : bool :=
  bool_decide (tok ∈ l).
Definition add (l : list string) (tok : string) : list string :=
  if contains l tok then l else l ++ [tok].
Definition remove (l : list string) (tok : string) : list string :=
  filter (λ t, t ≠ tok) l.
End classList.

(** ** STATE and the DOM around it *)

(** [{link, src, title}] *)
Record GalleryItem := {
  link : nat;
  src : option string;
  title : string;
}.

Global Instance GalleryItem_eq_dec : EqDecision GalleryItem.
Proof. solve_decision. Defined.

(** The subtree built by [buildOverlay]: the overlay's class list and the
    properties of its children that the script reads or writes. *)
Record Overlay := {
  overlay_classList : list string;
  img_src : option string;
  img_alt : string;
  caption_textContent : string;
  prevBtn_display : string;
  nextBtn_display : string;
  closeBtn_display : string;
}.

(** The closure registered on an anchor by [prepareGroups]; it captures
    [group] and [src]. *)
Record ClickListener := {
  cl_group : string;
  cl_src : option string;
}.

(** [STATE] ([groups], [currentGroup], [currentIndex] and the overlay
    handles, which are all [null] or all set), the class list of
    [document.documentElement], and the listeners the script has
    registered.  [open_calls] is a history variable: the arguments of every
    call of [open] so far. *)
Record World := {
  groups : gmap string (list GalleryItem);
  currentGroup : option string;
  currentIndex : Z;
  overlay : option Overlay;
  root_classList : list string;
  click_listeners : gmap nat (list ClickListener);
  keydown_listeners : nat;
  open_calls : list (string * option string);
}.

Definition set_groups (f : gmap string (list GalleryItem) → gmap string (list GalleryItem))
    (w : World) : World :=
  {| groups := f (groups w); currentGroup := currentGroup w;
     currentIndex := currentIndex w; overlay := overlay w;
     root_classList := root_classList w; click_listeners := click_listeners w;
     keydown_listeners := keydown_listeners w; open_calls := open_calls w |}.

Definition set_currentGroup (g : option string) (w : World) : World :=
  {| groups := groups w; currentGroup := g;
     currentIndex := currentIndex w; overlay := overlay w;
     root_classList := root_classList w; click_listeners := click_listeners w;
     keydown_listeners := keydown_listeners w; open_calls := open_calls w |}.

Definition set_currentIndex (i : Z) (w : World) : World :=
  {| groups := groups w; currentGroup := currentGroup w;
     currentIndex := i; overlay := overlay w;
     root_classList := root_classList w; click_listeners := click_listeners w;
     keydown_listeners := keydown_listeners w; open_calls := open_calls w |}.

Definition set_overlay (o : option Overlay) (w : World) : World :=
  {| groups := groups w; currentGroup := currentGroup w;
     currentIndex := currentIndex w; overlay := o;
     root_classList := root_classList w; click_listeners := click_listeners w;
     keydown_listeners := keydown_listeners w; open_calls := open_calls w |}.

Definition set_root_classList (f : list string → list string) (w : World) : World :=
  {| groups := groups w; currentGroup := currentGroup w;
     currentIndex := currentIndex w; overlay := overlay w;
     root_classList := f (root_classList w); click_listeners := click_listeners w;
     keydown_listeners := keydown_listeners w; open_calls := open_calls w |}.

Definition set_click_listeners
    (f : gmap nat (list ClickListener) → gmap nat (list ClickListener))
    (w : World) : World :=
  {| groups := groups w; currentGroup := currentGroup w;
     currentIndex := currentIndex w; overlay := overlay w;
     root_classList := root_classList w; click_listeners := f (click_listeners w);
     keydown_listeners := keydown_listeners w; open_calls := open_calls w |}.

Definition set_keydown_listeners (f : nat → nat) (w : World) : World :=
  {| groups := groups w; currentGroup := currentGroup w;
     currentIndex := currentIndex w; overlay := overlay w;
     root_classList := root_classList w; click_listeners := click_listeners w;
     keydown_listeners := f (keydown_listeners w); open_calls := open_calls w |}.

Definition set_open_calls
    (f : list (string * option string) → list (string * option string))
    (w : World) : World :=
  {| groups := groups w; currentGroup := currentGroup w;
     currentIndex := currentIndex w; overlay := overlay w;
     root_classList := root_classList w; click_listeners := click_listeners w;
     keydown_listeners := keydown_listeners w; open_calls := f (open_calls w) |}.

(** The page when the script has just run: [STATE] as initialised, no
    listener registered yet; [root] is whatever classes the page gave its
    root element. *)
Definition init_world (root : list string) : World :=
  {| groups := ∅; currentGroup := None; currentIndex := -1; overlay := None;
     root_classList := root; click_listeners := ∅; keydown_listeners := 0;
     open_calls := [] |}.

(** ** Script functions as computations

    A computation runs on a [World] and completes normally or by throwing;
    either way the mutations made so far stay in the world. *)

Inductive completion (A : Type) :=
  | Normal (v : A)
  | Throw (err : string).
Arguments Normal {A} v.
Arguments Throw {A} err.

Definition Script (A : Type) : Type := World → completion A * World.

Global Instance Script_ret : MRet Script := λ A v w, (Normal v, w).
Global Instance Script_bind : MBind Script := λ A B f m w,
  match m w with
  | (Normal v, w') => f v w'
  | (Throw e, w') => (Throw e, w')
  end.

Definition get : Script World := λ w, (Normal w, w).
Definition modify (f : World → World) : Script unit := λ w, (Normal (), f w).
Definition throw {A : Type} (err : string) : Script A := λ w, (Throw err, w).

(** Reading a property of [STATE.overlay] (or of one of the other handles)
    throws a [TypeError] while the handle is [null]. *)
Definition deref_overlay : Script Overlay :=
  w ← get;
  match overlay w with
  | Some ov => mret ov
  | None => throw "TypeError"
  end.

Definition fresh_overlay : Overlay :=
  {| overlay_classList := ["gd-lightbox-overlay"];
     img_src := None; img_alt := "";
     caption_textContent := "";
     prevBtn_display := ""; nextBtn_display := ""; closeBtn_display := "" |}.

(** [buildOverlay]: a no-op once [STATE.overlay] is set; otherwise creates
    the overlay, stores the handles and registers the listeners, of which
    the [keydown] listener on [document] is counted in the world (the three
    click listeners live on the overlay's own elements). *)
Definition buildOverlay : Script unit :=
  w ← get;
  match overlay w with
  | Some _ => mret ()
  | None =>
      modify (set_overlay (Some fresh_overlay));;
      modify (set_keydown_listeners S)
  end.

(** [STATE.groups.get(STATE.currentGroup) || []]; no key of the table is
    [null], so the lookup fails while [currentGroup] is [null]. *)
Definition current_items (w : World) : list GalleryItem :=
  default [] (currentGroup w ≫= λ g, groups w !! g).

(** [showIndex(i)] (lines 80-93): nothing for an empty group; otherwise
    wraps [i], stores it and writes the item to the overlay. *)
Definition showIndex (i : Z) : Script unit :=
  w ← get;
  let items := current_items w in
  if bool_decide (length items = 0%nat) then mret ()
  else
    let len := Z.of_nat (length items) in
    let i := if bool_decide (i < 0) then len - 1 else i in
    let i := if bool_decide (len ≤ i) then 0 else i in
    modify (set_currentIndex i);;
    match JS.index items i with
    | None => throw "TypeError"
    | Some it =>
        ov ← deref_overlay;
        let multi := bool_decide (1 < length items)%nat in
        modify (set_overlay (Some
          {| overlay_classList := overlay_classList ov;
             img_src := Some (JS.ToString (src it));
             img_alt := JS.or_str (Some (title it)) "";
             caption_textContent := JS.or_str (Some (title it)) "";
             prevBtn_display := if multi then "" else "none";
             nextBtn_display := if multi then "" else "none";
             closeBtn_display := closeBtn_display ov |}))
    end.

Definition set_overlay_classList (f : list string → list string) (ov : Overlay) : Overlay :=
  {| overlay_classList := f (overlay_classList ov);
     img_src := img_src ov; img_alt := img_alt ov;
     caption_textContent := caption_textContent ov;
     prevBtn_display := prevBtn_display ov;
     nextBtn_display := nextBtn_display ov;
     closeBtn_display := closeBtn_display ov |}.

(** [hide()] (lines 75-79). *)
Definition hide : Script unit :=
  ov ← deref_overlay;
  modify (set_overlay (Some
    (set_overlay_classList (λ l, classList.remove l "is-open") ov)));;
  modify (set_root_classList (λ l, classList.remove l "gd-lightbox-lock"));;
  modify (set_currentIndex (-1)).

(** [open(group, src)] (lines 66-74); the first step records the call in
    the history variable and is no part of the script. *)
Definition open (group : string) (s : option string) : Script unit :=
  modify (set_open_calls (λ h, h ++ [(group, s)]));;
  buildOverlay;;
  modify (set_currentGroup (Some group));;
  w ← get;
  let arr := default [] (groups w !! group) in
  let idx := JS.findIndex (λ it, bool_decide (src it = s)) arr in
  ov ← deref_overlay;
  modify (set_overlay (Some
    (set_overlay_classList (λ l, classList.add l "is-open") ov)));;
  modify (set_root_classList (λ l, classList.add l "gd-lightbox-lock"));;
  showIndex (if bool_decide (idx < 0) then 0 else idx).

(** [Array.prototype.forEach] with a callback that may throw. *)
Fixpoint forEach {A : Type} (f : A → Script unit) (l : list A) : Script unit :=
  match l with
  | [] => mret ()
  | x :: l' => f x;; forEach f l'
  end.

(** The three constants computed at the top of the callback of
    [prepareGroups]. *)
Definition group_of (a : Element) : string :=
  JS.or_str (getAttribute a "data-lightbox") "_default".

Definition title_of (a : Element) : string :=
  JS.or_str
    (JS.or (JS.or (getAttribute a "data-title") (getAttribute a "title"))
           (img_alt_of a))
    "".

Definition item_of (a : Element) : GalleryItem :=
  {| link := node a; src := getAttribute a "href"; title := title_of a |}.

Definition listener_of (a : Element) : ClickListener :=
  {| cl_group := group_of a; cl_src := getAttribute a "href" |}.

(** The callback of [prepareGroups], run on one anchor. *)
Definition prepareGroups_each (a : Element) : Script unit :=
  let group := group_of a in
  w ← get;
  (if bool_decide (is_Some (groups w !! group)) then mret ()
   else modify (set_groups <[group := []]>));;
  w ← get;
  match groups w !! group with
  | None => throw "TypeError"
  | Some arr => modify (set_groups <[group := arr ++ [item_of a]]>)
  end;;
  modify (set_click_listeners (λ m,
    <[node a := default [] (m !! node a) ++ [listener_of a]]> m)).

(** [prepareGroups()] (lines 51-65) on the document [doc]. *)
Definition prepareGroups (doc : list Element) : Script unit :=
  modify (set_groups (λ _, ∅));;
  forEach prepareGroups_each (qsa doc).

(** ** Events

    The host calls the registered listeners one after the other; a listener
    that throws is reported and the next one runs. *)

Definition run_listeners (ls : list (Script unit)) (w : World) : World :=
  foldl (λ w l, (l w).2) w ls.

Record MouseEvent := {
  button : Z;
  metaKey : bool;
  ctrlKey : bool;
  shiftKey : bool;
  altKey : bool;
}.

(** The listener that [prepareGroups] puts on an anchor.  Its
    [e.preventDefault()] only stops the browser from following the link,
    which is not part of the world; it does not stop the propagation of the
    event. *)
Definition anchor_onclick (h : ClickListener) (e : MouseEvent) : Script unit :=
  if bool_decide (button e ≠ 0) || metaKey e || ctrlKey e || shiftKey e || altKey e
  then mret ()
  else open (cl_group h) (cl_src h).

(** A click event is delivered to one anchor [n] of its propagation path
    (the target or one of its ancestors): the host runs the listeners
    registered on [n], in order. *)
Definition dispatch_click (e : MouseEvent) (n : nat) (w : World) : World :=
  run_listeners
    ((λ h, anchor_onclick h e) <$> default [] (click_listeners w !! n)) w.

(** The [keydown] listener that [buildOverlay] puts on [document]. *)
Definition document_onkeydown (key : string) : Script unit :=
  ov ← deref_overlay;
  if negb (classList.contains (overlay_classList ov) "is-open") then mret ()
  else
    (if bool_decide (key = "Escape") then hide else mret ());;
    (if bool_decide (key = "ArrowLeft")
     then w ← get; showIndex (currentIndex w - 1) else mret ());;
    (if bool_decide (key = "ArrowRight")
     then w ← get; showIndex (currentIndex w + 1) else mret ()).

Definition dispatch_keydown (key : string) (w : World) : World :=
  run_listeners (replicate (keydown_listeners w) (document_onkeydown key)) w.

(** Where a click inside the overlay lands. *)
Inductive OverlayTarget :=
  | OnOverlay
  | OnCloseBtn
  | OnPrevBtn
  | OnNextBtn
  | OnStage.

(** The listener on the overlay itself; clicks on its descendants bubble
    up to it, except those on the two navigation buttons, whose listeners
    stop the propagation. *)
Definition overlay_onclick (target : OverlayTarget) : Script unit :=
  match target with
  | OnOverlay | OnCloseBtn => hide
  | _ => mret ()
  end.

Definition prevBtn_onclick : Script unit :=
  w ← get; showIndex (currentIndex w - 1).

Definition nextBtn_onclick : Script unit :=
  w ← get; showIndex (currentIndex w + 1).

Definition dispatch_overlay_click (target : OverlayTarget) (w : World) : World :=
  match overlay w with
  | None => w
  | Some _ =>
      match target with
      | OnPrevBtn => run_listeners [prevBtn_onclick] w
      | OnNextBtn => run_listeners [nextBtn_onclick] w
      | _ => run_listeners [overlay_onclick target] w
      end
  end.

(** What can happen to the page: [prepareGroups] runs on the current
    markup ([DOMContentLoaded] or [GDLightbox.refresh()]), a click event
    reaches an anchor (as its target, or on its way up from a descendant;
    one click of the user is one such step per anchor of its path, see
    [bubbling_click]), the user presses a key or clicks inside the
    overlay. *)
Inductive Event :=
  | Refresh (doc : list Element)
  | AnchorClick (e : MouseEvent) (n : nat)
  | KeyDown (key : string)
  | OverlayClick (target : OverlayTarget).

Definition step (ev : Event) (w : World) : World :=
  match ev with
  | Refresh doc => (prepareGroups doc w).2
  | AnchorClick e n => dispatch_click e n w
  | KeyDown key => dispatch_keydown key w
  | OverlayClick target => dispatch_overlay_click target w
  end.

Definition run_events (evs : list Event) (w : World) : World :=
  foldl (λ w ev, step ev w) w evs.

Inductive Reachable : World → Prop :=
  | Reachable_init root : Reachable (init_world root)
  | Reachable_step ev w : Reachable w → Reachable (step ev w).

(** ** What the specification speaks of *)

(** The group an anchor declares, in the words of the specification: the
    value of its group-name attribute, and the sentinel group when the
    attribute is absent or empty. *)
Definition declared_group (a : Element) : string :=
  match getAttribute a "data-lightbox" with
  | None => "_default"
  | Some name => if decide (name = "") then "_default" else name
  end.




(** The overlay is shown while it carries [is-open]; the page cannot scroll
    while the root element carries [gd-lightbox-lock]. *)
Definition visible (w : World) : bool :=
  match overlay w with
  | Some ov => classList.contains (overlay_classList ov) "is-open"
  | None => false
  end.

Definition scroll_locked (w : World) : bool :=
  classList.contains (root_classList w) "gd-lightbox-lock".

(** What the overlay shows: image, caption and the three buttons. *)
Definition rendering (ov : Overlay) :
    option string * string * string * string * string * string :=
  (img_src ov, img_alt ov, caption_textContent ov,
   prevBtn_display ov, nextBtn_display ov, closeBtn_display ov).

(** The image and the index on display, if the overlay is shown. *)
Definition shown (w : World) : option (option string * Z) :=
  match overlay w with
  | Some ov => if visible w then Some (img_src ov, currentIndex w) else None
  | None => None
  end.

(** A click with the primary button and no modifier key. *)
Definition unmodified_primary (e : MouseEvent) : Prop :=
  button e = 0 ∧ metaKey e = false ∧ ctrlKey e = false ∧
  shiftKey e = false ∧ altKey e = false.

(** ** Sample pages *)

Definition anchor (n : nat) (group href : string) : Element :=
  {| node := n;
     attrs := {[ "data-lightbox" := group; "href" := href ]};
     imgs := [] |}.

(** Three anchors of one group (scenario A of the specification). *)
Definition vacation : list Element :=
  [anchor 0 "vacation" "/a.jpg"; anchor 1 "vacation" "/b.jpg";
   anchor 2 "vacation" "/c.jpg"].

(** One anchor with an empty group name. *)
Definition solo : list Element := [anchor 0 "" "/only.jpg"].

(** An anchor with neither link target nor caption. *)
Definition bare : Element :=
  {| node := 0; attrs := {[ "data-lightbox" := "g" ]}; imgs := [] |}.


Definition primary_click : MouseEvent :=
  {| button := 0; metaKey := false; ctrlKey := false; shiftKey := false;
     altKey := false |}.

(** ** Closed forms of the script functions *)

(** The index that [showIndex] settles on: below zero goes to the last
    item, at or past the length goes to the first. *)
Definition wrap_index (len i : Z) : Z :=
  let i := if bool_decide (i < 0) then len - 1 else i in
  if bool_decide (len ≤ i) then 0 else i.

(** What [showIndex] writes into the overlay for item [it] of a group of
    [n] items. *)
Definition rendered (ov : Overlay) (n : nat) (it : GalleryItem) : Overlay :=
  {| overlay_classList := overlay_classList ov;
     img_src := Some (JS.ToString (src it));
     img_alt := title it;
     caption_textContent := title it;
     prevBtn_display := if bool_decide (1 < n)%nat then "" else "none";
     nextBtn_display := if bool_decide (1 < n)%nat then "" else "none";
     closeBtn_display := closeBtn_display ov |}.

(** The world after [buildOverlay], and the overlay it holds. *)
Definition built (w : World) : World :=
  match overlay w with
  | Some _ => w
  | None => set_keydown_listeners S (set_overlay (Some fresh_overlay) w)
  end.

Definition built_overlay (w : World) : Overlay :=
  default fresh_overlay (overlay w).

(** The world in which [open] calls [showIndex]: the call is logged, the
    overlay exists and carries [is-open], the root carries the scroll lock
    and [currentGroup] is the requested group. *)
Definition opened (group : string) (s : option string) (w : World) : World :=
  set_root_classList (λ l, classList.add l "gd-lightbox-lock")
    (set_overlay
       (Some (set_overlay_classList (λ l, classList.add l "is-open")
                (built_overlay w)))
       (set_currentGroup (Some group)
          (built (set_open_calls (λ h, h ++ [(group, s)]) w)))).

(** The index [open] passes to [showIndex]. *)
Definition start_index (group : string) (s : option string) (w : World) : Z :=
  let idx := JS.findIndex (λ it, bool_decide (src it = s))
               (default [] (groups w !! group)) in
  if bool_decide (idx < 0) then 0 else idx.

(** The two tables, and the world, after the callback of [prepareGroups]
    has run on anchor [a]. *)
Definition push_item (a : Element) (m : gmap string (list GalleryItem)) :
    gmap string (list GalleryItem) :=
  <[group_of a := default [] (m !! group_of a) ++ [item_of a]]> m.

Definition attach (a : Element) (m : gmap nat (list ClickListener)) :
    gmap nat (list ClickListener) :=
  <[node a := default [] (m !! node a) ++ [listener_of a]]> m.

Definition indexed (w : World) (a : Element) : World :=
  set_click_listeners (attach a) (set_groups (push_item a) w).

(** The anchors of [l] that the script puts in group [g]. *)
Definition members (g : string) (l : list Element) : list Element :=
  filter (λ a, group_of a = g) l.

(** ** Invariants *)

Definition preserves {A : Type} (P : World → Prop) (m : Script A) : Prop :=
  ∀ w, P w → P (m w).2.

(** Every group of the table has an item; a session is only ever opened
    after the overlay is built; nothing hides the close button. *)
Record Inv (w : World) : Prop := {
  Inv_groups : ∀ g items, groups w !! g = Some items → items ≠ [];
  Inv_overlay : is_Some (currentGroup w) → is_Some (overlay w);
  Inv_closeBtn : ∀ ov, overlay w = Some ov → closeBtn_display ov = "";
}.

(** ** Notions for the properties beyond the claims *)

(** A computation keeps an observation [f] of the world. *)
Definition keeps {X A : Type} (f : World → X) (m : Script A) : Prop :=
  ∀ w, f (m w).2 = f w.

(** From the worlds that satisfy [P], a computation completes normally and
    ends in such a world. *)
Definition total {A : Type} (P : World → Prop) (m : Script A) : Prop :=
  ∀ w, P w → P (m w).2 ∧ ∃ v, (m w).1 = Normal v.

(** Run in order from [w], as the host does, every listener of the list
    completes normally. *)
Fixpoint all_normal (ls : list (Script unit)) (w : World) : Prop :=
  match ls with
  | [] => True
  | l :: ls' => (l w).1 = Normal () ∧ all_normal ls' (l w).2
  end.

(** [document] carries the [keydown] listener once when the overlay exists
    and not at all before. *)
Definition one_keydown_listener (w : World) : Prop :=
  keydown_listeners w = match overlay w with Some _ => 1%nat | None => 0%nat end.

Definition has_overlay (w : World) : Prop := is_Some (overlay w).

(** The computations the host runs for an event, in order: the script's
    own entry point for a refresh, the registered listeners otherwise. *)
Definition event_listeners (ev : Event) (w : World) : list (Script unit) :=
  match ev with
  | Refresh doc => [prepareGroups doc]
  | AnchorClick e n =>
      (λ h, anchor_onclick h e) <$> default [] (click_listeners w !! n)
  | KeyDown key => replicate (keydown_listeners w) (document_onkeydown key)
  | OverlayClick target =>
      match overlay w with
      | None => []
      | Some _ =>
          match target with
          | OnPrevBtn => [prevBtn_onclick]
          | OnNextBtn => [nextBtn_onclick]
          | _ => [overlay_onclick target]
          end
      end
  end.

(** The overlay is shown exactly when the page scroll is locked. *)
Definition lock_follows_overlay (w : World) : Prop :=
  visible w = scroll_locked w.

Definition is_refresh (ev : Event) : bool :=
  match ev with
  | Refresh _ => true
  | _ => false
  end.

(** The session has a current group [g] with the items [items], and the
    current index points into it. *)
Record InSession (w : World) (g : string) (items : list GalleryItem) : Prop := {
  InSession_group : currentGroup w = Some g;
  InSession_items : groups w !! g = Some items;
  InSession_index : 0 ≤ currentIndex w < Z.of_nat (length items);
}.

(** Two anchors of two groups, then the first group alone. *)
Definition two_groups : list Element :=
  [anchor 0 "x" "/x.jpg"; anchor 1 "y" "/y.jpg"].

Definition shift_click : MouseEvent :=
  {| button := 0; metaKey := false; ctrlKey := false; shiftKey := true;
     altKey := false |}.

(** An [a] element without the [data-lightbox] attribute. *)
Definition plain_link : Element :=
  {| node := 7; attrs := {[ "href" := "/p.jpg" ]}; imgs := [] |}.

(** ** Marked anchors and bubbling clicks *)

(** The group an anchor declares: the value of its group-name attribute,
    the sentinel name for an empty value, and none at all for an anchor
    that does not carry the attribute. *)
Definition declared (a : Element) : option string :=
  match getAttribute a "data-lightbox" with
  | Some name => Some (if decide (name = "") then "_default" else name)
  | None => None
  end.

(** Two anchors of group x, one with an empty group name and, between
    them, an [a] element without the attribute. *)
Definition mixed : list Element :=
  [anchor 0 "x" "/x.jpg"; plain_link; anchor 1 "" "/d.jpg"; anchor 2 "x" "/z.jpg"].

(** One click of the user: the event travels from its target up through
    the target's ancestors, and no listener of the script stops it on an
    anchor, so the host delivers it to every anchor of that path, innermost
    first.  [path] lists the nodes of those anchors. *)
Definition bubbling_click (e : MouseEvent) (path : list nat) : list Event :=
  AnchorClick e <$> path.

(** The calls of [open] that one plain click makes through the listeners
    of an anchor of the document after [k] indexing runs: [k] for an
    anchor that carries the attribute, none for one that does not. *)
Definition calls_of (k : nat) (b : Element) : list (string * option string) :=
  match declared b with
  | Some g => replicate k (g, getAttribute b "href")
  | None => []
  end.

(** * Proofs *)

(** Scenario A of the specification, run on the model: a click on the
    second of three anchors shows it, the right arrow moves on and wraps. *)
Example scenario_A :
  let w1 := run_events [Refresh vacation; AnchorClick primary_click 1] (init_world []) in
  let w2 := step (KeyDown "ArrowRight") w1 in
  let w3 := step (KeyDown "ArrowRight") w2 in
  shown w1 = Some (Some "/b.jpg", 1) ∧
  shown w2 = Some (Some "/c.jpg", 2) ∧
  shown w3 = Some (Some "/a.jpg", 0).
Proof. vm_compute. done. Qed.

(** ** Running scripts *)

Ltac run_script :=
  unfold mbind, mret, Script_bind, Script_ret, get, modify, throw; cbn.

Ltac script_cases :=
  run_script; repeat (case_match; simplify_eq/=; try done).

Lemma classList_remove_contains l tok :
  classList.contains (classList.remove l tok) tok = false.
Proof.
  unfold classList.contains, classList.remove.
  apply bool_decide_eq_false. rewrite list_elem_of_filter. tauto.
Qed.

Lemma classList_add_contains l tok :
  classList.contains (classList.add l tok) tok = true.
Proof.
  unfold classList.add. destruct (classList.contains l tok) eqn:E; [done|].
  unfold classList.contains. apply bool_decide_eq_true. set_solver.
Qed.

Lemma wrap_index_range len i : 0 < len → 0 ≤ wrap_index len i < len.
Proof. unfold wrap_index. intros. repeat case_bool_decide; lia. Qed.

Lemma wrap_index_id len i : 0 ≤ i < len → wrap_index len i = i.
Proof. unfold wrap_index. intros. repeat case_bool_decide; lia. Qed.

Lemma or_str_empty s : JS.or_str (Some s) "" = s.
Proof.
  unfold JS.or_str, JS.or, JS.truthy.
  case_bool_decide; simpl; congruence.
Qed.

Lemma showIndex_noop i w :
  current_items w = [] → showIndex i w = (Normal (), w).
Proof. intros E. unfold showIndex. run_script. by rewrite E. Qed.

Lemma showIndex_render i w ov :
  overlay w = Some ov →
  current_items w ≠ [] →
  let n := length (current_items w) in
  let j := wrap_index (Z.of_nat n) i in
  ∃ it, current_items w !! Z.to_nat j = Some it ∧
        showIndex i w =
          (Normal (), set_overlay (Some (rendered ov n it)) (set_currentIndex j w)).
Proof.
  intros Hov Hne n j.
  assert (0 < Z.of_nat n) as Hn.
  { subst n. destruct (current_items w); [done | simpl; lia]. }
  pose proof (wrap_index_range _ i Hn) as Hj.
  destruct (lookup_lt_is_Some_2 (current_items w) (Z.to_nat j)) as [it Hit].
  { subst n. lia. }
  exists it. split; [done|].
  unfold showIndex, deref_overlay. run_script.
  rewrite bool_decide_eq_false_2 by (subst n; lia).
  fold (wrap_index (Z.of_nat (length (current_items w))) i). fold n. fold j.
  unfold JS.index. rewrite bool_decide_eq_false_2 by lia.
  rewrite Hit. cbn. rewrite Hov. cbn.
  unfold rendered. by rewrite !or_str_empty.
Qed.

Lemma hide_run w ov :
  overlay w = Some ov →
  hide w =
    (Normal (),
     set_currentIndex (-1)
       (set_root_classList (λ l, classList.remove l "gd-lightbox-lock")
          (set_overlay
             (Some (set_overlay_classList (λ l, classList.remove l "is-open") ov))
             w))).
Proof. intros Hov. unfold hide, deref_overlay. run_script. by rewrite Hov. Qed.

Lemma hide_null w : overlay w = None → hide w = (Throw "TypeError", w).
Proof. intros Hov. unfold hide, deref_overlay. run_script. by rewrite Hov. Qed.

Lemma open_run group s w :
  open group s w = showIndex (start_index group s w) (opened group s w).
Proof.
  unfold open, buildOverlay, deref_overlay, opened, built, built_overlay, start_index.
  run_script. destruct (overlay w) as [ov|] eqn:Hov; cbn; by rewrite ?Hov.
Qed.

Lemma opened_current_items group s w :
  current_items (opened group s w) = default [] (groups w !! group).
Proof.
  unfold current_items, opened, built. cbn. by destruct (overlay w).
Qed.

Lemma opened_overlay group s w :
  overlay (opened group s w) =
    Some (set_overlay_classList (λ l, classList.add l "is-open") (built_overlay w)).
Proof. done. Qed.

(** ** [findIndex] *)

Lemma findIndex_from_none {A} (p : A → bool) l i :
  Forall (λ x, p x = false) l → JS.findIndex_from p l i = -1.
Proof.
  intros H. revert i. induction H as [|x l Hx _ IH]; intros i; simpl; [done|].
  by rewrite Hx.
Qed.

Lemma findIndex_from_first {A} (p : A → bool) l i k x :
  l !! k = Some x → p x = true →
  (∀ j y, (j < k)%nat → l !! j = Some y → p y = false) →
  JS.findIndex_from p l i = i + Z.of_nat k.
Proof.
  revert i k. induction l as [|y l IH]; intros i k Hk Hp Hfirst; [done|].
  destruct k as [|k]; simpl in *.
  - simplify_eq. rewrite Hp. lia.
  - assert (p y = false) as -> by (apply (Hfirst 0%nat); [lia | done]).
    rewrite (IH (i + 1) k); [lia | done | done |].
    intros j z Hj Hz. apply (Hfirst (S j) z); [lia | done].
Qed.

(** ** [prepareGroups] *)

Lemma prepareGroups_each_run a w :
  prepareGroups_each a w = (Normal (), indexed w a).
Proof.
  unfold prepareGroups_each, indexed, push_item, attach. run_script.
  destruct (groups w !! group_of a) as [arr|] eqn:Hg.
  - rewrite bool_decide_eq_true_2 by eauto. cbn. rewrite Hg. cbn.
    unfold set_click_listeners, set_groups. cbn. by rewrite Hg.
  - rewrite bool_decide_eq_false_2 by (intros [? ?]; congruence). cbn.
    rewrite lookup_insert_eq. cbn.
    unfold set_click_listeners, set_groups. cbn.
    by rewrite insert_insert_eq, Hg.
Qed.

Lemma forEach_prepareGroups_each l w :
  forEach prepareGroups_each l w = (Normal (), foldl indexed w l).
Proof.
  revert w. induction l as [|a l IH]; intros w; [done|].
  cbn. run_script. rewrite prepareGroups_each_run. apply IH.
Qed.

Lemma prepareGroups_run doc w :
  prepareGroups doc w =
    (Normal (), foldl indexed (set_groups (λ _, ∅) w) (qsa doc)).
Proof. unfold prepareGroups. run_script. apply forEach_prepareGroups_each. Qed.

Lemma foldl_indexed_groups l w :
  groups (foldl indexed w l) = foldl (λ m a, push_item a m) (groups w) l.
Proof. revert w. induction l as [|a l IH]; intros w; [done|]. cbn. by rewrite IH. Qed.

Lemma foldl_indexed_click_listeners l w :
  click_listeners (foldl indexed w l) =
    foldl (λ m a, attach a m) (click_listeners w) l.
Proof. revert w. induction l as [|a l IH]; intros w; [done|]. cbn. by rewrite IH. Qed.

Lemma foldl_indexed_frame l w :
  currentGroup (foldl indexed w l) = currentGroup w ∧
  currentIndex (foldl indexed w l) = currentIndex w ∧
  overlay (foldl indexed w l) = overlay w ∧
  root_classList (foldl indexed w l) = root_classList w ∧
  keydown_listeners (foldl indexed w l) = keydown_listeners w ∧
  open_calls (foldl indexed w l) = open_calls w.
Proof.
  revert w. induction l as [|a l IH]; intros w; [done|].
  cbn. destruct (IH (indexed w a)) as (-> & -> & -> & -> & -> & ->). done.
Qed.

(** Appending to the entry of a key, one element of [l] after the other:
    the entry of [k] ends with the images of the elements whose key is
    [k], in the order of [l]. *)
Lemma foldl_append_lookup `{Countable K} {A V : Type}
    (key : A → K) (val : A → V) (l : list A) (m : gmap K (list V)) (k : K) :
  foldl (λ m a, <[key a := default [] (m !! key a) ++ [val a]]> m) m l !! k =
    match filter (λ a, key a = k) l with
    | [] => m !! k
    | sel => Some (default [] (m !! k) ++ (val <$> sel))
    end.
Proof.
  revert m. induction l as [|a l IH]; intros m; [done|].
  cbn [foldl]. rewrite IH, filter_cons.
  destruct (decide (key a = k)) as [<-|Hne].
  - rewrite lookup_insert_eq. cbn.
    destruct (filter _ l); cbn; [done|]. by rewrite <- app_assoc.
  - by rewrite lookup_insert_ne.
Qed.

Lemma prepareGroups_lookup doc w g :
  groups (prepareGroups doc w).2 !! g =
    match members g (qsa doc) with
    | [] => None
    | sel => Some (item_of <$> sel)
    end.
Proof.
  rewrite prepareGroups_run. cbn [snd]. rewrite foldl_indexed_groups.
  unfold push_item.
  rewrite (foldl_append_lookup group_of item_of). cbn.
  unfold members. by destruct (filter _ (qsa doc)).
Qed.

Lemma prepareGroups_normal doc w : (prepareGroups doc w).1 = Normal ().
Proof. by rewrite prepareGroups_run. Qed.

(** The table does not depend on the world [prepareGroups] starts from. *)
Lemma prepareGroups_groups doc w w' :
  groups (prepareGroups doc w).2 = groups (prepareGroups doc w').2.
Proof. apply map_eq. intros g. by rewrite !prepareGroups_lookup. Qed.

Lemma prepareGroups_nonempty doc w g items :
  groups (prepareGroups doc w).2 !! g = Some items → items ≠ [].
Proof.
  rewrite prepareGroups_lookup. destruct (members g (qsa doc)); [done|].
  intros [= <-]. done.
Qed.

(** Every indexed anchor has its item in its group. *)
Lemma prepareGroups_item doc w a :
  a ∈ qsa doc →
  ∃ items k, groups (prepareGroups doc w).2 !! group_of a = Some items ∧
             items !! k = Some (item_of a).
Proof.
  intros Ha.
  assert (a ∈ members (group_of a) (qsa doc)) as Hm.
  { unfold members. by apply list_elem_of_filter. }
  rewrite prepareGroups_lookup.
  destruct (members (group_of a) (qsa doc)) as [|b sel] eqn:E.
  { by apply not_elem_of_nil in Hm. }
  apply list_elem_of_lookup in Hm as [k Hk].
  exists (item_of <$> b :: sel), k. split; [done|].
  by rewrite list_lookup_fmap, Hk.
Qed.

(** ** Invariants of the reachable worlds *)

Lemma preserves_bind {A B : Type} P (m : Script A) (f : A → Script B) :
  preserves P m → (∀ v, preserves P (f v)) → preserves P (m ≫= f).
Proof.
  intros Hm Hf w Hw. specialize (Hm w Hw). run_script.
  destruct (m w) as [[v|e] w']; cbn in *; [by apply Hf | done].
Qed.

Lemma preserves_ret {A : Type} P (v : A) : preserves P (mret v).
Proof. by intros w Hw. Qed.

Lemma preserves_get P : preserves P get.
Proof. by intros w Hw. Qed.

Lemma preserves_deref_overlay P : preserves P deref_overlay.
Proof. intros w Hw. unfold deref_overlay. run_script. by destruct (overlay w). Qed.

Lemma preserves_run_listeners P ls :
  Forall (preserves P) ls → ∀ w, P w → P (run_listeners ls w).
Proof.
  unfold run_listeners. induction 1 as [|l ls Hl _ IH]; intros w Hw; [done|].
  cbn. apply IH, Hl, Hw.
Qed.

Create HintDb preserves.
#[local] Hint Resolve preserves_ret preserves_get preserves_deref_overlay : preserves.

Ltac preserves_step :=
  first
    [ solve [eauto with preserves]
    | match goal with |- preserves _ (if ?b then _ else _) => destruct b end
    | apply preserves_bind; [|intros ?] ].

Lemma Inv_init root : Inv (init_world root).
Proof.
  split; cbn.
  - intros g items. by rewrite lookup_empty.
  - by intros [? ?].
  - done.
Qed.

Lemma Inv_current_items w :
  Inv w → current_items w ≠ [] →
  ∃ g ov, currentGroup w = Some g ∧ groups w !! g = Some (current_items w) ∧
          overlay w = Some ov.
Proof.
  intros HI Hne. unfold current_items in *.
  destruct (currentGroup w) as [g|] eqn:Hg; [|done]. cbn in *.
  destruct (Inv_overlay w HI) as [ov Hov]; [by rewrite Hg|].
  destruct (groups w !! g) as [items|] eqn:Hi; [|done].
  by exists g, ov.
Qed.

Lemma showIndex_Inv i : preserves Inv (showIndex i).
Proof.
  intros w HI.
  destruct (decide (current_items w = [])) as [E|Hne].
  { by rewrite showIndex_noop. }
  destruct (Inv_current_items w HI Hne) as (g & ov & Hg & Hi & Hov).
  destruct (showIndex_render i w ov Hov Hne) as (it & _ & ->). cbn.
  destruct HI as [H1 H2 H3]. split; cbn; [done | eauto |].
  intros ? [= <-]. cbn. eauto.
Qed.

Lemma hide_Inv : preserves Inv hide.
Proof.
  intros w HI. destruct (overlay w) as [ov|] eqn:Hov.
  - rewrite (hide_run w ov Hov). cbn.
    destruct HI as [H1 H2 H3]. split; cbn; [done | eauto |].
    intros ? [= <-]. cbn. eauto.
  - by rewrite hide_null.
Qed.

Lemma opened_Inv group s w : Inv w → Inv (opened group s w).
Proof.
  intros [H1 H2 H3]. unfold opened, built, built_overlay.
  split; cbn.
  - by destruct (overlay w).
  - eauto.
  - intros ? [= <-]. cbn. destruct (overlay w) eqn:Hov; cbn; eauto.
Qed.

Lemma open_Inv group s : preserves Inv (open group s).
Proof. intros w HI. rewrite open_run. by apply showIndex_Inv, opened_Inv. Qed.

Lemma prepareGroups_Inv doc : preserves Inv (prepareGroups doc).
Proof.
  intros w [H1 H2 H3].
  pose proof (prepareGroups_nonempty doc w) as Hne.
  rewrite prepareGroups_run in *. cbn [snd] in *.
  destruct (foldl_indexed_frame (qsa doc) (set_groups (λ _, ∅) w))
    as (Hg & _ & Hov & _).
  split; [done | |]; rewrite ?Hg, Hov; cbn; eauto.
Qed.

#[local] Hint Resolve showIndex_Inv hide_Inv open_Inv prepareGroups_Inv : preserves.

Lemma anchor_onclick_Inv h e : preserves Inv (anchor_onclick h e).
Proof. unfold anchor_onclick. repeat preserves_step. Qed.

Lemma document_onkeydown_Inv key : preserves Inv (document_onkeydown key).
Proof. unfold document_onkeydown. repeat preserves_step. Qed.

Lemma overlay_onclick_Inv target : preserves Inv (overlay_onclick target).
Proof. destruct target; cbn; eauto with preserves. Qed.

Lemma prevBtn_onclick_Inv : preserves Inv prevBtn_onclick.
Proof. unfold prevBtn_onclick. repeat preserves_step. Qed.

Lemma nextBtn_onclick_Inv : preserves Inv nextBtn_onclick.
Proof. unfold nextBtn_onclick. repeat preserves_step. Qed.

Lemma step_Inv ev w : Inv w → Inv (step ev w).
Proof.
  intros HI.
  destruct ev as [doc|e n|key|target];
    unfold step, dispatch_click, dispatch_keydown.
  - by apply prepareGroups_Inv.
  - apply preserves_run_listeners; [|done].
    apply Forall_fmap, Forall_forall. intros h _. apply anchor_onclick_Inv.
  - apply preserves_run_listeners; [|done].
    apply Forall_replicate, document_onkeydown_Inv.
  - unfold dispatch_overlay_click. destruct (overlay w); [|done].
    destruct target; (apply preserves_run_listeners; [|done]);
      (apply Forall_cons; split; [|by apply Forall_nil]);
      auto using overlay_onclick_Inv, prevBtn_onclick_Inv, nextBtn_onclick_Inv.
Qed.

Lemma Reachable_Inv w : Reachable w → Inv w.
Proof. induction 1; [apply Inv_init | by apply step_Inv]. Qed.

Lemma Reachable_run_events evs w : Reachable w → Reachable (run_events evs w).
Proof.
  revert w. induction evs as [|ev evs IH]; intros w Hw; [done|].
  cbn. apply IH. by constructor.
Qed.

(** * The specification's claims *)

(** ** Grouping *)

Lemma group_of_declared a : group_of a = declared_group a.
Proof.
  unfold group_of, declared_group, JS.or_str, JS.or, JS.truthy.
  destruct (getAttribute a "data-lightbox") as [name|]; [|done].
  case_bool_decide; by case_decide.
Qed.

Lemma members_declared g l : members g l = filter (λ a, declared_group a = g) l.
Proof.
  unfold members. induction l as [|a l IH]; [done|].
  rewrite !filter_cons, IH, group_of_declared. done.
Qed.

Lemma declared_Some a g :
  declared a = Some g ↔
  group_of a = g ∧ is_Some (getAttribute a "data-lightbox").
Proof.
  rewrite group_of_declared. unfold declared, declared_group.
  destruct (getAttribute a "data-lightbox") as [name|].
  - split; [intros [= <-]; eauto | by intros [<- _]].
  - split; [done | by intros [_ [? ?]]].
Qed.

Lemma members_qsa g doc :
  members g (qsa doc) = filter (λ a, declared a = Some g) doc.
Proof.
  unfold members, qsa. rewrite list_filter_filter.
  apply list_filter_iff. intros a. by rewrite declared_Some.
Qed.

(** C1, as the code has it. For every document and every world it starts
    from, [prepareGroups] completes and leaves a table in which the entry
    of a name [g] holds the items of exactly the anchors of the document
    that carry the group-name attribute and declare [g] with it (an empty
    value declaring ['_default']), in document order; a name that no such
    anchor declares has no entry, and an anchor without the attribute is in
    no group. *)
Theorem prepareGroups_partitions (doc : list Element) (w : World) :
  (prepareGroups doc w).1 = Normal () ∧
  ∀ g : string,
    groups (prepareGroups doc w).2 !! g =
      match filter (λ a, declared a = Some g) doc with
      | [] => None
      | sel => Some (item_of <$> sel)
      end.
Proof.
  split; [apply prepareGroups_normal|].
  intros g. by rewrite prepareGroups_lookup, members_qsa.
Qed.

Lemma prepareGroups_partitions_witness :
  let table := groups (prepareGroups mixed (init_world [])).2 in
  table !! "x" =
    Some [ {| link := 0; src := Some "/x.jpg"; title := "" |};
           {| link := 2; src := Some "/z.jpg"; title := "" |} ] ∧
  table !! "_default" =
    Some [ {| link := 1; src := Some "/d.jpg"; title := "" |} ] ∧
  table !! "y" = None.
Proof.
  cbn zeta.
  destruct (prepareGroups_partitions mixed (init_world [])) as [_ Htable].
  rewrite !Htable. vm_compute. repeat split.
Defined.

(** C1, as stated, fails for an anchor whose group-name attribute is
    absent: it is not put in the default group, it is not indexed at all. *)
Lemma unmarked_anchor_not_in_default :
  getAttribute plain_link "data-lightbox" = None ∧
  declared_group plain_link = "_default" ∧
  groups (prepareGroups [plain_link] (init_world [])).2 !! "_default" = None ∧
  groups (prepareGroups [plain_link] (init_world [])).2 = ∅.
Proof. vm_compute. repeat split. Qed.

(** C9. [prepareGroups] run twice on the same markup yields the same table
    both times: the second run, which starts from the world the first one
    left, ends with the very table the first one built. *)
Theorem refresh_idempotent (doc : list Element) (w : World) :
  let w1 := (prepareGroups doc w).2 in
  let w2 := (prepareGroups doc w1).2 in
  (prepareGroups doc w).1 = Normal () ∧
  (prepareGroups doc w1).1 = Normal () ∧
  groups w2 = groups w1 ∧
  dom (groups w2) = dom (groups w1) ∧
  ∀ g, groups w2 !! g = groups w1 !! g.
Proof.
  cbn zeta.
  assert (groups (prepareGroups doc (prepareGroups doc w).2).2 =
          groups (prepareGroups doc w).2) as E by apply prepareGroups_groups.
  rewrite !prepareGroups_normal, E. done.
Qed.

(** ** Opening *)

(** C2. In a reachable world, opening a group of the table with a source
    sets the current index to the position of the first item of the group
    whose source is the requested one, and to 0 when no item of the group
    has that source. *)
Theorem open_resolves_index (w : World) (g : string) (s : option string)
    (items : list GalleryItem) :
  Reachable w →
  groups w !! g = Some items →
  ∃ w', open g s w = (Normal (), w') ∧
    (∀ (k : nat) it, items !! k = Some it → src it = s →
       (∀ (j : nat) it', (j < k)%nat → items !! j = Some it' → src it' ≠ s) →
       currentIndex w' = Z.of_nat k) ∧
    ((∀ it, it ∈ items → src it ≠ s) → currentIndex w' = 0).
Proof.
  intros HR Hg. pose proof (Reachable_Inv w HR) as HI.
  pose proof (Inv_groups w HI g items Hg) as Hne.
  rewrite open_run.
  assert (current_items (opened g s w) = items) as Hcur.
  { by rewrite opened_current_items, Hg. }
  destruct (showIndex_render (start_index g s w) (opened g s w) _
              (opened_overlay g s w)) as (it0 & _ & Hrun).
  { by rewrite Hcur. }
  rewrite Hcur in Hrun. rewrite Hrun.
  eexists. split; [done|]. cbn [currentIndex set_overlay set_currentIndex].
  assert (0 < Z.of_nat (length items)) as Hlen.
  { destruct items; [done | simpl; lia]. }
  unfold start_index, JS.findIndex. rewrite Hg. cbn. split.
  - intros k it Hk Hsrc Hfirst.
    rewrite (findIndex_from_first _ items 0 k it Hk).
    + apply lookup_lt_Some in Hk.
      rewrite bool_decide_eq_false_2 by lia. apply wrap_index_id. lia.
    + by apply bool_decide_eq_true.
    + intros j it' Hj Hit'. apply bool_decide_eq_false. eauto.
  - intros Hnone. rewrite findIndex_from_none.
    + rewrite bool_decide_eq_true_2 by lia. apply wrap_index_id. lia.
    + apply Forall_forall. intros it Hit. apply bool_decide_eq_false. eauto.
Qed.

Lemma open_resolves_index_witness :
  ∃ w', open "vacation" (Some "/b.jpg")
          (run_events [Refresh vacation] (init_world [])) = (Normal (), w') ∧
        currentIndex w' = 1.
Proof.
  destruct (open_resolves_index
              (run_events [Refresh vacation] (init_world []))
              "vacation" (Some "/b.jpg")
              (item_of <$> vacation)) as (w' & Hrun & Hfirst & _).
  - apply Reachable_run_events, Reachable_init.
  - vm_compute. reflexivity.
  - exists w'. split; [exact Hrun|].
    apply (Hfirst 1%nat (item_of (anchor 1 "vacation" "/b.jpg"))).
    + reflexivity.
    + reflexivity.
    + intros j it' Hj Hit'. destruct j as [|j]; [|lia].
      injection Hit' as <-. discriminate.
Defined.

(** ** Navigation *)

Lemma showIndex_current_index i w g items :
  Reachable w → currentGroup w = Some g → groups w !! g = Some items →
  ∃ ov it,
    overlay w = Some ov ∧
    items !! Z.to_nat (wrap_index (Z.of_nat (length items)) i) = Some it ∧
    showIndex i w =
      (Normal (),
       set_overlay (Some (rendered ov (length items) it))
         (set_currentIndex (wrap_index (Z.of_nat (length items)) i) w)).
Proof.
  intros HR Hg Hi. pose proof (Reachable_Inv w HR) as HI.
  assert (current_items w = items) as Hcur.
  { unfold current_items. rewrite Hg. cbn. by rewrite Hi. }
  destruct (Inv_overlay w HI) as [ov Hov]; [by rewrite Hg|].
  destruct (showIndex_render i w ov Hov) as (it & Hit & Hrun).
  { rewrite Hcur. eapply Inv_groups; eauto. }
  rewrite Hcur in *. eauto.
Qed.

(** C3. In a reachable world whose current group has [N] items, [N] is at
    least 1, [showIndex(-1)] ends on index [N-1] and [showIndex(N)] on index
    0; when [N = 1], the listeners of the previous and of the next button
    both end on index 0 with the two navigation buttons hidden and the
    close button shown. *)
Theorem showIndex_circular (w : World) (g : string) (items : list GalleryItem) :
  Reachable w →
  currentGroup w = Some g →
  groups w !! g = Some items →
  let N := Z.of_nat (length items) in
  1 ≤ N ∧
  (∃ w', showIndex (-1) w = (Normal (), w') ∧ currentIndex w' = N - 1) ∧
  (∃ w', showIndex N w = (Normal (), w') ∧ currentIndex w' = 0) ∧
  (N = 1 →
   ∀ nav, nav = prevBtn_onclick ∨ nav = nextBtn_onclick →
     ∃ w' ov', nav w = (Normal (), w') ∧
       currentIndex w' = 0 ∧
       overlay w' = Some ov' ∧
       prevBtn_display ov' = "none" ∧
       nextBtn_display ov' = "none" ∧
       closeBtn_display ov' = "").
Proof.
  intros HR Hg Hi N.
  pose proof (Reachable_Inv w HR) as HI.
  assert (1 ≤ N) as HN.
  { pose proof (Inv_groups w HI g items Hi). subst N.
    destruct items; [done | simpl; lia]. }
  split; [done|]. split; [|split].
  - destruct (showIndex_current_index (-1) w g items HR Hg Hi)
      as (ov & it & _ & _ & ->).
    eexists. split; [done|]. cbn. fold N. unfold wrap_index.
    repeat case_bool_decide; lia.
  - destruct (showIndex_current_index N w g items HR Hg Hi)
      as (ov & it & _ & _ & ->).
    eexists. split; [done|]. cbn. fold N. unfold wrap_index.
    repeat case_bool_decide; lia.
  - intros H1 nav Hnav.
    assert (∃ i, nav w = showIndex i w) as [i ->].
    { destruct Hnav as [-> | ->];
        [exists (currentIndex w - 1) | exists (currentIndex w + 1)]; reflexivity. }
    destruct (showIndex_current_index i w g items HR Hg Hi)
      as (ov & it & Hov & _ & ->).
    eexists _, _. split; [done|]. cbn. fold N.
    split; [|split; [done|]].
    + rewrite H1. unfold wrap_index. repeat case_bool_decide; lia.
    + unfold rendered. cbn. rewrite (Inv_closeBtn w HI ov Hov).
      rewrite !bool_decide_eq_false_2 by lia. done.
Qed.

Lemma showIndex_circular_witness :
  let w := run_events [Refresh solo; AnchorClick primary_click 0] (init_world []) in
  ∃ w' ov', nextBtn_onclick w = (Normal (), w') ∧
    currentIndex w' = 0 ∧
    overlay w' = Some ov' ∧
    prevBtn_display ov' = "none" ∧
    nextBtn_display ov' = "none" ∧
    closeBtn_display ov' = "".
Proof.
  cbn zeta.
  destruct (showIndex_circular
              (run_events [Refresh solo; AnchorClick primary_click 0] (init_world []))
              "_default" (item_of <$> solo)) as (_ & _ & _ & Hsolo).
  - apply Reachable_run_events, Reachable_init.
  - vm_compute. reflexivity.
  - vm_compute. reflexivity.
  - apply Hsolo; [reflexivity | right; reflexivity].
Defined.

(** ** Dismissal *)

(** C7. Once the overlay exists, [hide] completes, takes [is-open] off the
    overlay, takes the scroll lock off the root element and sets the
    current index to [-1]; the table of groups and the name of the current
    group are as before. *)
Theorem hide_resets (w : World) (ov : Overlay) :
  overlay w = Some ov →
  ∃ w', hide w = (Normal (), w') ∧
    visible w' = false ∧
    scroll_locked w' = false ∧
    currentIndex w' = -1 ∧
    groups w' = groups w ∧
    currentGroup w' = currentGroup w.
Proof.
  intros Hov. rewrite (hide_run w ov Hov). eexists.
  split; [done|].
  split; [apply classList_remove_contains|].
  split; [apply classList_remove_contains|]. done.
Qed.

Lemma hide_resets_witness :
  let w := run_events [Refresh vacation; AnchorClick primary_click 1] (init_world []) in
  visible w = true ∧ scroll_locked w = true ∧ currentIndex w = 1 ∧
  ∃ w', hide w = (Normal (), w') ∧
    visible w' = false ∧
    scroll_locked w' = false ∧
    currentIndex w' = -1 ∧
    groups w' = groups w ∧
    currentGroup w' = currentGroup w.
Proof.
  cbn zeta. repeat (split; [vm_compute; reflexivity|]).
  eapply hide_resets. vm_compute. reflexivity.
Defined.

Lemma document_onkeydown_closed key w ov :
  overlay w = Some ov →
  classList.contains (overlay_classList ov) "is-open" = false →
  document_onkeydown key w = (Normal (), w).
Proof.
  intros Hov Hclosed. unfold document_onkeydown, deref_overlay. run_script.
  rewrite Hov. cbn. by rewrite Hclosed.
Qed.

Lemma dispatch_keydown_closed key w ov :
  overlay w = Some ov →
  classList.contains (overlay_classList ov) "is-open" = false →
  dispatch_keydown key w = w.
Proof.
  intros Hov Hclosed. unfold dispatch_keydown, run_listeners.
  induction (keydown_listeners w) as [|n IH]; [done|].
  cbn. by rewrite (document_onkeydown_closed key w ov).
Qed.

(** C8. After [hide] the overlay is not shown, and any sequence of key
    presses, arrow keys among them, leaves the whole world as [hide] left
    it: the [keydown] listener looks at nothing but the overlay's [is-open]
    class, and returns at its first line in every world whose overlay does
    not carry it. *)
Theorem keys_after_hide (w : World) (ov : Overlay) :
  overlay w = Some ov →
  let w' := (hide w).2 in
  visible w' = false ∧
  (∀ keys : list string, run_events (KeyDown <$> keys) w' = w') ∧
  (∀ w1 key, is_Some (overlay w1) → visible w1 = false →
     document_onkeydown key w1 = (Normal (), w1) ∧ dispatch_keydown key w1 = w1).
Proof.
  intros Hov. rewrite (hide_run w ov Hov). cbn [snd].
  set (w' := set_currentIndex _ _).
  set (ov' := set_overlay_classList (λ l, classList.remove l "is-open") ov).
  assert (overlay w' = Some ov') as Hov' by done.
  assert (classList.contains (overlay_classList ov') "is-open" = false) as Hc.
  { apply classList_remove_contains. }
  split; [exact Hc|]. split.
  - intros keys. induction keys as [|key keys IH]; [done|].
    change (run_events (KeyDown <$> key :: keys) w')
      with (run_events (KeyDown <$> keys) (dispatch_keydown key w')).
    rewrite (dispatch_keydown_closed key w' ov' Hov' Hc). apply IH.
  - intros w1 key [ov1 Hov1] Hhidden. unfold visible in Hhidden.
    rewrite Hov1 in Hhidden.
    split; [by apply (document_onkeydown_closed key w1 ov1)|].
    by apply (dispatch_keydown_closed key w1 ov1).
Qed.

Lemma keys_after_hide_witness :
  let w := run_events [Refresh vacation; AnchorClick primary_click 1] (init_world []) in
  run_events (KeyDown <$> ["ArrowLeft"; "ArrowRight"; "ArrowRight"]) (hide w).2
  = (hide w).2.
Proof.
  cbn zeta.
  edestruct (keys_after_hide
               (run_events [Refresh vacation; AnchorClick primary_click 1]
                  (init_world []))) as (_ & Hkeys & _).
  - vm_compute. reflexivity.
  - exact (Hkeys ["ArrowLeft"; "ArrowRight"; "ArrowRight"]).
Defined.

(** ** Click interception *)

Lemma filter_node_unique (l : list Element) a :
  NoDup (node <$> l) → a ∈ l → filter (λ b, node b = node a) l = [a].
Proof.
  induction l as [|b l IH]; intros Hnd Ha; [by apply not_elem_of_nil in Ha|].
  rewrite fmap_cons in Hnd. apply NoDup_cons in Hnd as [Hb Hnd].
  rewrite filter_cons. destruct (decide (node b = node a)) as [E|Hne].
  - assert (filter (λ c, node c = node a) l = []) as ->.
    { destruct (filter (λ c, node c = node a) l) as [|c r] eqn:Ef; [done|].
      assert (c ∈ filter (λ c, node c = node a) l) as Hc by (rewrite Ef; left).
      apply list_elem_of_filter in Hc as [Hca Hc].
      exfalso. apply Hb. rewrite E, <- Hca. by apply list_elem_of_fmap_2. }
    apply elem_of_cons in Ha as [->|Ha]; [done|].
    exfalso. apply Hb. rewrite E. by apply list_elem_of_fmap_2.
  - apply elem_of_cons in Ha as [->|Ha]; [done|]. by apply IH.
Qed.

Lemma prepareGroups_listeners doc w a :
  NoDup (node <$> doc) → a ∈ qsa doc →
  click_listeners (prepareGroups doc w).2 !! node a =
    Some (default [] (click_listeners w !! node a) ++ [listener_of a]).
Proof.
  intros Hnd Ha. rewrite prepareGroups_run. cbn [snd].
  rewrite foldl_indexed_click_listeners. unfold attach.
  rewrite (foldl_append_lookup node listener_of).
  rewrite filter_node_unique; [done | | done].
  eapply sublist_NoDup; [exact Hnd|].
  apply fmap_sublist, sublist_filter.
Qed.

Lemma refreshes_listeners doc w a k :
  NoDup (node <$> doc) → a ∈ qsa doc →
  default []
    (click_listeners (Nat.iter k (λ w, (prepareGroups doc w).2) w) !! node a) =
  default [] (click_listeners w !! node a) ++ replicate k (listener_of a).
Proof.
  intros Hnd Ha. induction k as [|k IH].
  - cbn. by rewrite app_nil_r.
  - rewrite Nat.iter_succ, prepareGroups_listeners by done.
    cbn [default]. by rewrite IH, replicate_S_end, app_assoc.
Qed.

Lemma prepareGroups_open_calls doc w :
  open_calls (prepareGroups doc w).2 = open_calls w.
Proof.
  rewrite prepareGroups_run. cbn [snd].
  by destruct (foldl_indexed_frame (qsa doc) (set_groups (λ _, ∅) w))
    as (_ & _ & _ & _ & _ & ->).
Qed.

Lemma showIndex_open_calls i w : open_calls (showIndex i w).2 = open_calls w.
Proof. unfold showIndex, deref_overlay. script_cases. Qed.

Lemma open_open_calls group s w :
  open_calls (open group s w).2 = open_calls w ++ [(group, s)].
Proof.
  rewrite open_run, showIndex_open_calls.
  unfold opened, built. cbn. by destruct (overlay _).
Qed.

Lemma anchor_onclick_opens h e :
  unmodified_primary e → anchor_onclick h e = open (cl_group h) (cl_src h).
Proof.
  intros (Hb & Hm & Hc & Hs & Ha). unfold anchor_onclick.
  rewrite Hm, Hc, Hs, Ha.
  by rewrite bool_decide_eq_false_2 by (intros ?; done).
Qed.

Lemma run_listeners_cons l ls w :
  run_listeners (l :: ls) w = run_listeners ls (l w).2.
Proof. done. Qed.

Lemma run_anchor_onclick_open_calls e hs w :
  unmodified_primary e →
  open_calls (run_listeners ((λ h, anchor_onclick h e) <$> hs) w) =
    open_calls w ++ ((λ h, (cl_group h, cl_src h)) <$> hs).
Proof.
  intros He. revert w. induction hs as [|h hs IH]; intros w.
  - cbn. by rewrite app_nil_r.
  - rewrite !fmap_cons, run_listeners_cons.
    rewrite IH, anchor_onclick_opens, open_open_calls by done.
    by rewrite <- app_assoc.
Qed.


(** ** Opening a group without items *)

(** C4, as the code has it. Opening a name that has no items in the table
    completes without throwing; [showIndex] does nothing, so the current
    index and the table are as before and the overlay's image, caption and
    buttons are as they were (as freshly built, when the overlay did not
    exist yet). [open] itself has by then recorded the name as current
    group, shown the overlay and locked the page scroll. *)
Theorem open_empty_group (w : World) (g : string) (s : option string) :
  default [] (groups w !! g) = [] →
  ∃ w' ov', open g s w = (Normal (), w') ∧
    currentIndex w' = currentIndex w ∧
    groups w' = groups w ∧
    overlay w' = Some ov' ∧
    rendering ov' = rendering (default fresh_overlay (overlay w)) ∧
    currentGroup w' = Some g ∧
    visible w' = true ∧
    scroll_locked w' = true.
Proof.
  intros Hempty. rewrite open_run, showIndex_noop.
  2: { by rewrite opened_current_items. }
  unfold opened, built, built_overlay, visible, scroll_locked.
  destruct (overlay w) as [ov|] eqn:Hov; eexists _, _; (split; [done|]);
    cbn [overlay set_root_classList set_overlay set_currentGroup set_open_calls
         set_keydown_listeners set_overlay_classList currentIndex groups
         currentGroup root_classList overlay_classList default];
    rewrite ?Hov;
    cbn [overlay set_root_classList set_overlay set_currentGroup set_open_calls
         set_keydown_listeners set_overlay_classList currentIndex groups
         currentGroup root_classList overlay_classList default];
    rewrite !classList_add_contains;
    repeat (split; [reflexivity|]); reflexivity.
Qed.

Lemma open_empty_group_witness :
  ∃ w' ov', open "missing" (Some "/a.jpg") (init_world []) = (Normal (), w') ∧
    currentIndex w' = -1 ∧
    groups w' = ∅ ∧
    overlay w' = Some ov' ∧
    rendering ov' = rendering fresh_overlay ∧
    currentGroup w' = Some "missing" ∧
    visible w' = true ∧
    scroll_locked w' = true.
Proof. apply (open_empty_group (init_world []) "missing" (Some "/a.jpg")). reflexivity. Defined.

(** C4, as stated, fails on the initial page: after [open] on a name that
    is not in the table the overlay, hidden before, is shown, the page
    scroll is locked and the session records the name. *)
Lemma open_empty_group_shows_overlay :
  let w := init_world [] in
  let w' := (open "missing" (Some "/a.jpg") w).2 in
  default [] (groups w !! "missing") = [] ∧
  visible w = false ∧ visible w' = true ∧
  scroll_locked w = false ∧ scroll_locked w' = true ∧
  currentGroup w = None ∧ currentGroup w' = Some "missing".
Proof. vm_compute. repeat split. Qed.

(** ** Items of the indexed anchors *)

(** C5, as the code has it. An eligible anchor without [href] is indexed
    all the same: its group holds an item that refers to it, whose source is
    [null]. *)
Theorem missing_href_indexed (doc : list Element) (w : World) (a : Element) :
  a ∈ qsa doc →
  getAttribute a "href" = None →
  (prepareGroups doc w).1 = Normal () ∧
  ∃ items (k : nat) it,
    groups (prepareGroups doc w).2 !! declared_group a = Some items ∧
    items !! k = Some it ∧
    link it = node a ∧
    src it = None.
Proof.
  intros Ha Hhref. split; [apply prepareGroups_normal|].
  destruct (prepareGroups_item doc w a Ha) as (items & k & Hg & Hk).
  exists items, k, (item_of a). rewrite <- group_of_declared.
  repeat split; done.
Qed.

Lemma missing_href_indexed_witness :
  ∃ items (k : nat) it,
    groups (prepareGroups [bare] (init_world [])).2 !! declared_group bare
      = Some items ∧
    items !! k = Some it ∧
    link it = node bare ∧
    src it = None.
Proof.
  apply (missing_href_indexed [bare] (init_world []) bare).
  - apply (bool_decide_unpack _). vm_compute. exact I.
  - reflexivity.
Defined.

(** C5, as stated, fails: the item of an anchor without [href] has the
    source [null], which is not the empty string. *)
Lemma missing_href_source_is_null :
  ∃ it,
    getAttribute bare "href" = None ∧
    groups (prepareGroups [bare] (init_world [])).2 !! "g" = Some [it] ∧
    link it = node bare ∧
    src it = None ∧
    src it ≠ Some "".
Proof.
  exists {| link := 0; src := None; title := "" |}.
  split; [reflexivity|]. split; [vm_compute; reflexivity|].
  split; [reflexivity|]. split; [reflexivity | discriminate].
Qed.







(** * Properties beyond the claims *)

(** ** Shapes of the worlds the script functions leave *)

Lemma showIndex_shape i w :
  ∃ j,
    (showIndex i w).2 = w ∨
    (showIndex i w).2 = set_currentIndex j w ∨
    ∃ ov it, overlay w = Some ov ∧
      (showIndex i w).2 =
        set_overlay (Some (rendered ov (length (current_items w)) it))
          (set_currentIndex j w).
Proof.
  exists (wrap_index (Z.of_nat (length (current_items w))) i).
  destruct (decide (current_items w = [])) as [E|Hne].
  { left. by rewrite showIndex_noop. }
  destruct (overlay w) as [ov|] eqn:Hov.
  - destruct (showIndex_render i w ov Hov Hne) as (it & _ & ->).
    right. right. by exists ov, it.
  - right. left. unfold showIndex, deref_overlay. run_script.
    rewrite bool_decide_eq_false_2
      by (destruct (current_items w); [done | discriminate]).
    fold (wrap_index (Z.of_nat (length (current_items w))) i).
    destruct (JS.index _ _); cbn; [by rewrite Hov | done].
Qed.

Lemma hide_shape w :
  (overlay w = None ∧ (hide w).2 = w) ∨
  ∃ ov, overlay w = Some ov ∧
    (hide w).2 =
      set_currentIndex (-1)
        (set_root_classList (λ l, classList.remove l "gd-lightbox-lock")
           (set_overlay
              (Some (set_overlay_classList
                       (λ l, classList.remove l "is-open") ov)) w)).
Proof.
  destruct (overlay w) as [ov|] eqn:Hov.
  - right. exists ov. by rewrite (hide_run w ov).
  - left. by rewrite hide_null.
Qed.

(** ** Observations kept by a computation *)

Lemma keeps_bind {X A B : Type} (f : World → X) (m : Script A) (k : A → Script B) :
  keeps f m → (∀ v, keeps f (k v)) → keeps f (m ≫= k).
Proof.
  intros Hm Hk w. specialize (Hm w). run_script.
  destruct (m w) as [[v|e] w']; cbn in *; [by rewrite Hk | done].
Qed.

Lemma keeps_ret {X A : Type} (f : World → X) (v : A) : keeps f (mret v).
Proof. by intros w. Qed.

Lemma keeps_get {X : Type} (f : World → X) : keeps f get.
Proof. by intros w. Qed.

Lemma keeps_deref_overlay {X : Type} (f : World → X) : keeps f deref_overlay.
Proof. intros w. unfold deref_overlay. run_script. by destruct (overlay w). Qed.

Lemma keeps_run_listeners {X : Type} (f : World → X) ls :
  Forall (keeps f) ls → ∀ w, f (run_listeners ls w) = f w.
Proof.
  unfold run_listeners. induction 1 as [|l ls Hl _ IH]; intros w; [done|].
  cbn. by rewrite IH, Hl.
Qed.

Create HintDb keeps.
#[local] Hint Resolve keeps_ret keeps_get keeps_deref_overlay : keeps.

Ltac keeps_step :=
  first
    [ solve [eauto with keeps]
    | match goal with |- keeps _ (if ?b then _ else _) => destruct b end
    | apply keeps_bind; [|intros ?] ].

Ltac keeps_by_shape :=
  unfold keeps; intros;
  match goal with
  | |- _ (showIndex ?i ?w).2 = _ =>
      destruct (showIndex_shape i w) as (? & [-> | [-> | (? & ? & ? & ->)]])
  | |- _ (hide ?w).2 = _ =>
      destruct (hide_shape w) as [[? ->] | (? & ? & ->)]
  end; done.

Lemma showIndex_keeps_groups i : keeps groups (showIndex i).
Proof. keeps_by_shape. Qed.

Lemma showIndex_keeps_click_listeners i : keeps click_listeners (showIndex i).
Proof. keeps_by_shape. Qed.

Lemma showIndex_keeps_root_classList i : keeps root_classList (showIndex i).
Proof. keeps_by_shape. Qed.

Lemma showIndex_keeps_currentGroup i : keeps currentGroup (showIndex i).
Proof. keeps_by_shape. Qed.

Lemma hide_keeps_groups : keeps groups hide.
Proof. keeps_by_shape. Qed.

Lemma hide_keeps_click_listeners : keeps click_listeners hide.
Proof. keeps_by_shape. Qed.

Lemma open_keeps_groups group s : keeps groups (open group s).
Proof.
  intros w. rewrite open_run, showIndex_keeps_groups.
  unfold opened, built. cbn. by destruct (overlay _).
Qed.

Lemma open_keeps_click_listeners group s : keeps click_listeners (open group s).
Proof.
  intros w. rewrite open_run, showIndex_keeps_click_listeners.
  unfold opened, built. cbn. by destruct (overlay _).
Qed.

#[local] Hint Resolve showIndex_keeps_groups showIndex_keeps_click_listeners
  hide_keeps_groups hide_keeps_click_listeners
  open_keeps_groups open_keeps_click_listeners : keeps.

Lemma listeners_keep {X : Type} (f : World → X) :
  (∀ i, keeps f (showIndex i)) → keeps f hide → (∀ g s, keeps f (open g s)) →
  ∀ ev w, is_refresh ev = false → f (step ev w) = f w.
Proof.
  intros Hshow Hhide Hopen ev w Hev.
  destruct ev as [doc|e n|key|target]; [done| | |];
    unfold step, dispatch_click, dispatch_keydown, dispatch_overlay_click.
  - apply keeps_run_listeners, Forall_fmap, Forall_forall. intros h _.
    unfold compose, anchor_onclick. repeat keeps_step.
  - apply keeps_run_listeners, Forall_replicate.
    unfold document_onkeydown. repeat keeps_step.
  - destruct (overlay w); [|done].
    destruct target; apply keeps_run_listeners;
      (apply Forall_cons; split; [|by apply Forall_nil]);
      unfold overlay_onclick, prevBtn_onclick, nextBtn_onclick;
      repeat keeps_step.
Qed.

(** ** What the events leave alone *)

(** X1. Only [prepareGroups] writes the table of groups and the click
    listeners: a click on an anchor, a key press or a click inside the
    overlay leaves both as they were, whatever the world. *)
Theorem table_changes_only_on_refresh (ev : Event) (w : World) :
  is_refresh ev = false →
  groups (step ev w) = groups w ∧
  click_listeners (step ev w) = click_listeners w.
Proof.
  intros Hev. split.
  - apply (listeners_keep groups); eauto with keeps.
  - apply (listeners_keep click_listeners); eauto with keeps.
Qed.

Lemma table_changes_only_on_refresh_witness :
  let w := run_events [Refresh vacation; AnchorClick primary_click 1] (init_world []) in
  groups (step (KeyDown "ArrowRight") w) = groups w ∧
  click_listeners (step (KeyDown "ArrowRight") w) = click_listeners w.
Proof.
  cbn zeta. apply table_changes_only_on_refresh. reflexivity.
Defined.

Lemma prepareGroups_frame doc w :
  currentGroup (prepareGroups doc w).2 = currentGroup w ∧
  currentIndex (prepareGroups doc w).2 = currentIndex w ∧
  overlay (prepareGroups doc w).2 = overlay w ∧
  root_classList (prepareGroups doc w).2 = root_classList w ∧
  keydown_listeners (prepareGroups doc w).2 = keydown_listeners w ∧
  open_calls (prepareGroups doc w).2 = open_calls w.
Proof.
  rewrite prepareGroups_run. cbn [snd].
  apply (foldl_indexed_frame (qsa doc) (set_groups (λ _, ∅) w)).
Qed.

(** X2. [prepareGroups] never touches the session: the current group and
    index, the overlay with all it shows, the root element's classes and
    the [keydown] listener are as before, so an open overlay stays open on
    the same image while the table is rebuilt under it. *)
Theorem refresh_keeps_session (doc : list Element) (w : World) :
  let w' := step (Refresh doc) w in
  currentGroup w' = currentGroup w ∧
  currentIndex w' = currentIndex w ∧
  overlay w' = overlay w ∧
  root_classList w' = root_classList w ∧
  keydown_listeners w' = keydown_listeners w ∧
  visible w' = visible w ∧
  scroll_locked w' = scroll_locked w ∧
  shown w' = shown w.
Proof.
  cbn zeta. unfold step.
  destruct (prepareGroups_frame doc w) as (Hg & Hi & Hov & Hr & Hk & _).
  unfold shown, visible, scroll_locked. rewrite Hg, Hi, Hov, Hr, Hk. done.
Qed.

Lemma prepareGroups_listeners_prefix doc w n :
  default [] (click_listeners w !! n) `prefix_of`
    default [] (click_listeners (prepareGroups doc w).2 !! n).
Proof.
  rewrite prepareGroups_run. cbn [snd].
  rewrite foldl_indexed_click_listeners. unfold attach.
  rewrite (foldl_append_lookup node listener_of). cbn.
  destruct (filter _ (qsa doc)); [done|]. cbn. by apply prefix_app_r.
Qed.

(** X3. No event ever removes or reorders a click listener: the listeners
    an anchor carried before an event are a prefix of those it carries
    after it. Listeners of earlier indexing runs therefore stay for the
    life of the page. *)
Theorem click_listeners_only_grow (ev : Event) (w : World) (n : nat) :
  default [] (click_listeners w !! n) `prefix_of`
    default [] (click_listeners (step ev w) !! n).
Proof.
  destruct (is_refresh ev) eqn:Hev.
  - destruct ev; try done. apply prepareGroups_listeners_prefix.
  - by rewrite (listeners_keep click_listeners) by eauto with keeps.
Qed.

Lemma classList_remove_add l tok :
  classList.remove (classList.add l tok) tok = classList.remove l tok.
Proof.
  unfold classList.add. destruct (classList.contains l tok); [done|].
  unfold classList.remove. rewrite filter_app, filter_cons, decide_False by auto.
  by rewrite filter_nil, app_nil_r.
Qed.

Lemma classList_remove_idemp l tok :
  classList.remove (classList.remove l tok) tok = classList.remove l tok.
Proof.
  unfold classList.remove. induction l as [|t l IH]; [done|].
  rewrite filter_cons. destruct (decide (t ≠ tok)) as [Hne|]; [|done].
  by rewrite filter_cons, decide_True, IH.
Qed.

(** The root element's classes other than the scroll lock. *)
Lemma page_classes_keeps_showIndex i :
  keeps (λ w, classList.remove (root_classList w) "gd-lightbox-lock") (showIndex i).
Proof. intros w. by rewrite showIndex_keeps_root_classList. Qed.

Lemma page_classes_keeps_hide :
  keeps (λ w, classList.remove (root_classList w) "gd-lightbox-lock") hide.
Proof.
  intros w. destruct (hide_shape w) as [[_ ->] | (ov & _ & ->)]; [done|].
  cbn [root_classList set_root_classList set_overlay set_currentIndex].
  apply classList_remove_idemp.
Qed.

Lemma page_classes_keeps_open group s :
  keeps (λ w, classList.remove (root_classList w) "gd-lightbox-lock") (open group s).
Proof.
  intros w. rewrite open_run, showIndex_keeps_root_classList.
  unfold opened.
  cbn [root_classList set_root_classList set_overlay set_currentGroup].
  rewrite classList_remove_add. unfold built.
  cbn [overlay set_open_calls]. by destruct (overlay w).
Qed.

(** X4. The scroll-lock token is the only class of the root element that
    any event adds or removes: with that token taken out, the class list
    after an event is the class list before it, in the same order. *)
Theorem page_classes_untouched (ev : Event) (w : World) :
  classList.remove (root_classList (step ev w)) "gd-lightbox-lock" =
  classList.remove (root_classList w) "gd-lightbox-lock".
Proof.
  destruct (is_refresh ev) eqn:Hev.
  - destruct ev as [doc| | |]; try done. unfold step.
    by destruct (prepareGroups_frame doc w) as (_ & _ & _ & -> & _).
  - apply (listeners_keep
             (λ w, classList.remove (root_classList w) "gd-lightbox-lock"));
      auto using page_classes_keeps_showIndex, page_classes_keeps_hide,
                 page_classes_keeps_open.
Qed.

(** ** The overlay is built once, and no listener throws *)

Lemma step_preserves (P : World → Prop) :
  (∀ i, preserves P (showIndex i)) → preserves P hide →
  (∀ g s, preserves P (open g s)) → (∀ doc, preserves P (prepareGroups doc)) →
  ∀ ev w, P w → P (step ev w).
Proof.
  intros Hshow Hhide Hopen Hprep ev w Hw.
  destruct ev as [doc|e n|key|target];
    unfold step, dispatch_click, dispatch_keydown, dispatch_overlay_click.
  - by apply Hprep.
  - apply preserves_run_listeners; [|done].
    apply Forall_fmap, Forall_forall. intros h _.
    unfold compose, anchor_onclick. repeat preserves_step.
  - apply preserves_run_listeners; [|done]. apply Forall_replicate.
    unfold document_onkeydown. repeat preserves_step.
  - destruct (overlay w); [|done].
    destruct target; (apply preserves_run_listeners; [|done]);
      (apply Forall_cons; split; [|by apply Forall_nil]);
      unfold overlay_onclick, prevBtn_onclick, nextBtn_onclick;
      repeat preserves_step.
Qed.

Lemma Reachable_preserved (P : World → Prop) :
  (∀ root, P (init_world root)) →
  (∀ i, preserves P (showIndex i)) → preserves P hide →
  (∀ g s, preserves P (open g s)) → (∀ doc, preserves P (prepareGroups doc)) →
  ∀ w, Reachable w → P w.
Proof.
  intros Hinit Hshow Hhide Hopen Hprep w. induction 1; [done|].
  by apply step_preserves.
Qed.

Lemma showIndex_one_keydown_listener i : preserves one_keydown_listener (showIndex i).
Proof.
  intros w. unfold one_keydown_listener.
  destruct (showIndex_shape i w) as (j & [-> | [-> | (ov & it & Hov & ->)]]);
    [done | done |]. cbn. by rewrite Hov.
Qed.

Lemma hide_one_keydown_listener : preserves one_keydown_listener hide.
Proof.
  intros w. unfold one_keydown_listener.
  destruct (hide_shape w) as [[_ ->] | (ov & Hov & ->)]; [done|].
  cbn. by rewrite Hov.
Qed.

Lemma opened_one_keydown_listener group s w :
  one_keydown_listener w → one_keydown_listener (opened group s w).
Proof.
  unfold one_keydown_listener, opened, built. cbn.
  destruct (overlay w); cbn; [done | by intros ->].
Qed.

Lemma open_one_keydown_listener group s :
  preserves one_keydown_listener (open group s).
Proof.
  intros w Hw. rewrite open_run.
  by apply showIndex_one_keydown_listener, opened_one_keydown_listener.
Qed.

Lemma prepareGroups_one_keydown_listener doc :
  preserves one_keydown_listener (prepareGroups doc).
Proof.
  intros w. unfold one_keydown_listener.
  by destruct (prepareGroups_frame doc w) as (_ & _ & -> & _ & -> & _).
Qed.

Lemma Reachable_one_keydown_listener w : Reachable w → one_keydown_listener w.
Proof.
  apply Reachable_preserved;
    auto using showIndex_one_keydown_listener, hide_one_keydown_listener,
               open_one_keydown_listener, prepareGroups_one_keydown_listener.
  done.
Qed.

Lemma showIndex_has_overlay i : preserves has_overlay (showIndex i).
Proof.
  intros w. unfold has_overlay.
  destruct (showIndex_shape i w) as (j & [-> | [-> | (ov & it & Hov & ->)]]);
    cbn; eauto.
Qed.

Lemma hide_has_overlay : preserves has_overlay hide.
Proof.
  intros w. unfold has_overlay.
  destruct (hide_shape w) as [[_ ->] | (ov & Hov & ->)]; cbn; eauto.
Qed.

Lemma open_builds group s w : has_overlay (open group s w).2.
Proof.
  rewrite open_run. apply showIndex_has_overlay.
  unfold has_overlay. rewrite opened_overlay. eauto.
Qed.

Lemma open_has_overlay group s : preserves has_overlay (open group s).
Proof. intros w _. apply open_builds. Qed.

Lemma prepareGroups_has_overlay doc : preserves has_overlay (prepareGroups doc).
Proof.
  intros w. unfold has_overlay.
  by destruct (prepareGroups_frame doc w) as (_ & _ & -> & _).
Qed.

Lemma step_has_overlay ev w : has_overlay w → has_overlay (step ev w).
Proof.
  apply step_preserves;
    auto using showIndex_has_overlay, hide_has_overlay, open_has_overlay,
               prepareGroups_has_overlay.
Qed.

(** X5. The overlay is built once. In a reachable world [document] carries
    the [keydown] listener exactly once if the overlay exists and not at
    all otherwise; once the overlay exists [buildOverlay] does nothing, and
    no event unsets the overlay or registers the listener again. *)
Theorem overlay_built_once (w : World) :
  Reachable w →
  one_keydown_listener w ∧
  (has_overlay w →
   buildOverlay w = (Normal (), w) ∧
   ∀ ev, has_overlay (step ev w) ∧ keydown_listeners (step ev w) = 1%nat).
Proof.
  intros HR. split; [by apply Reachable_one_keydown_listener|].
  intros Hov. split.
  - destruct Hov as [ov Hov]. unfold buildOverlay. run_script. by rewrite Hov.
  - intros ev. pose proof (step_has_overlay ev w Hov) as Hov'.
    split; [done|].
    pose proof (Reachable_one_keydown_listener _ (Reachable_step ev w HR)) as Hk.
    unfold one_keydown_listener in Hk.
    destruct Hov' as [ov' Hov']. by rewrite Hov' in Hk.
Qed.

Lemma overlay_built_once_witness :
  let w := run_events [Refresh vacation; AnchorClick primary_click 1] (init_world []) in
  one_keydown_listener w ∧
  (has_overlay w →
   buildOverlay w = (Normal (), w) ∧
   ∀ ev, has_overlay (step ev w) ∧ keydown_listeners (step ev w) = 1%nat).
Proof.
  cbn zeta. apply overlay_built_once.
  apply Reachable_run_events, Reachable_init.
Defined.

(** *** Completion *)

Lemma total_bind {A B : Type} P (m : Script A) (k : A → Script B) :
  total P m → (∀ v, total P (k v)) → total P (m ≫= k).
Proof.
  intros Hm Hk w Hw. destruct (Hm w Hw) as [Hw' [v Hv]]. run_script.
  destruct (m w) as [c w']. cbn in *. subst c. by apply Hk.
Qed.

Lemma total_ret {A : Type} P (v : A) : total P (mret v).
Proof. intros w Hw. split; [done | by exists v]. Qed.

Lemma total_get P : total P get.
Proof. intros w Hw. split; [done | by exists w]. Qed.

Lemma total_deref_overlay : total has_overlay deref_overlay.
Proof.
  intros w [ov Hov]. unfold deref_overlay. run_script. rewrite Hov.
  split; [by exists ov | by exists ov].
Qed.

Lemma showIndex_total i : total has_overlay (showIndex i).
Proof.
  intros w Hw. split; [by apply showIndex_has_overlay|]. exists ().
  destruct (decide (current_items w = [])) as [E|Hne].
  { by rewrite showIndex_noop. }
  destruct Hw as [ov Hov].
  by destruct (showIndex_render i w ov Hov Hne) as (it & _ & ->).
Qed.

Lemma hide_total : total has_overlay hide.
Proof.
  intros w Hw. split; [by apply hide_has_overlay|]. exists ().
  destruct Hw as [ov Hov]. by rewrite (hide_run w ov Hov).
Qed.

Lemma open_normal group s w : (open group s w).1 = Normal ().
Proof.
  rewrite open_run.
  destruct (showIndex_total (start_index group s w) (opened group s w))
    as [_ [[] Hv]]; [|done].
  unfold has_overlay. rewrite opened_overlay. eauto.
Qed.

Lemma open_total group s : total has_overlay (open group s).
Proof.
  intros w _. split; [apply open_builds | exists (); apply open_normal].
Qed.

Create HintDb total.
#[local] Hint Resolve total_ret total_get total_deref_overlay showIndex_total
  hide_total open_total : total.

Ltac total_step :=
  first
    [ solve [eauto with total]
    | match goal with |- total _ (if ?b then _ else _) => destruct b end
    | apply total_bind; [|intros ?] ].

Lemma all_normal_total P ls w :
  Forall (total P) ls → P w → all_normal ls w.
Proof.
  intros Hls. revert w. induction Hls as [|l ls Hl _ IH]; intros w Hw; [done|].
  destruct (Hl w Hw) as [Hw' [[] Hv]]. split; [done | by apply IH].
Qed.

Lemma anchor_onclick_normal h e w :
  (anchor_onclick h e w).1 = Normal ().
Proof.
  unfold anchor_onclick. destruct (_ || _); [done | apply open_normal].
Qed.

Lemma all_normal_anchor_onclick e hs w :
  all_normal ((λ h, anchor_onclick h e) <$> hs) w.
Proof.
  revert w. induction hs as [|h hs IH]; intros w; [done|].
  rewrite fmap_cons. split; [apply anchor_onclick_normal | apply IH].
Qed.

(** X6. In a reachable world no listener of the script throws: for every
    event, what the host runs is the list [event_listeners], and each
    computation of it, run in turn, completes normally. In particular
    [hide] and [showIndex] never meet a [null] overlay handle and
    [showIndex] never reads outside the items. *)
Theorem no_listener_throws (w : World) (ev : Event) :
  Reachable w →
  step ev w = run_listeners (event_listeners ev w) w ∧
  all_normal (event_listeners ev w) w.
Proof.
  intros HR. pose proof (Reachable_one_keydown_listener w HR) as Hk.
  unfold one_keydown_listener in Hk.
  destruct ev as [doc|e n|key|target]; cbn [event_listeners step].
  - split; [done|]. split; [apply prepareGroups_normal | done].
  - split; [done | apply all_normal_anchor_onclick].
  - split; [done|]. destruct (overlay w) as [ov|] eqn:Hov.
    + apply (all_normal_total has_overlay); [|by exists ov].
      apply Forall_replicate. unfold document_onkeydown. repeat total_step.
    + by rewrite Hk.
  - unfold dispatch_overlay_click.
    destruct (overlay w) as [ov|] eqn:Hov; [|done].
    split; [by destruct target|].
    destruct target; (apply (all_normal_total has_overlay); [|by exists ov]);
      (apply Forall_cons; split; [|by apply Forall_nil]);
      unfold overlay_onclick, prevBtn_onclick, nextBtn_onclick;
      repeat total_step.
Qed.

Lemma no_listener_throws_witness :
  let w := run_events [Refresh vacation; AnchorClick primary_click 1] (init_world []) in
  step (KeyDown "ArrowLeft") w =
    run_listeners (event_listeners (KeyDown "ArrowLeft") w) w ∧
  all_normal (event_listeners (KeyDown "ArrowLeft") w) w.
Proof.
  cbn zeta. apply no_listener_throws.
  apply Reachable_run_events, Reachable_init.
Defined.

(** ** Clicks and keys *)

Lemma run_listeners_skip ls w :
  Forall (λ l, l = (mret () : Script unit)) ls → run_listeners ls w = w.
Proof.
  induction 1 as [|l ls -> _ IH]; [done|]. by rewrite run_listeners_cons.
Qed.

(** X7. A click on an anchor that is not a plain primary click (another
    button, or Meta, Ctrl, Shift or Alt held) changes nothing, however many
    listeners the anchor carries: the link is left to the browser. *)
Theorem modified_click_ignored (e : MouseEvent) (n : nat) (w : World) :
  ¬ unmodified_primary e →
  dispatch_click e n w = w.
Proof.
  intros He. unfold dispatch_click. apply run_listeners_skip.
  apply Forall_fmap, Forall_forall. intros h _. unfold compose, anchor_onclick.
  destruct (bool_decide (button e ≠ 0) || metaKey e || ctrlKey e
            || shiftKey e || altKey e) eqn:Hguard; [done|].
  exfalso. apply He. unfold unmodified_primary.
  repeat (apply orb_false_elim in Hguard as [Hguard ?]).
  apply bool_decide_eq_false in Hguard. repeat split; try done.
  by destruct (decide (button e = 0)).
Qed.

Lemma modified_click_ignored_witness :
  let w := run_events [Refresh vacation; Refresh vacation] (init_world []) in
  dispatch_click shift_click 1 w = w.
Proof.
  cbn zeta. apply modified_click_ignored.
  intros (_ & _ & _ & Hshift & _). discriminate Hshift.
Defined.

Lemma step_KeyDown key w :
  Reachable w →
  step (KeyDown key) w =
    match overlay w with
    | Some _ => (document_onkeydown key w).2
    | None => w
    end.
Proof.
  intros HR. pose proof (Reachable_one_keydown_listener w HR) as Hk.
  unfold one_keydown_listener in Hk. unfold step, dispatch_keydown.
  rewrite Hk. by destruct (overlay w).
Qed.

Lemma document_onkeydown_visible key w :
  visible w = true →
  (document_onkeydown key w).2 =
    if bool_decide (key = "Escape") then (hide w).2
    else if bool_decide (key = "ArrowLeft")
         then (showIndex (currentIndex w - 1) w).2
    else if bool_decide (key = "ArrowRight")
         then (showIndex (currentIndex w + 1) w).2
    else w.
Proof.
  unfold visible. destruct (overlay w) as [ov|] eqn:Hov; [|done]. intros Hvis.
  unfold document_onkeydown, deref_overlay. run_script.
  rewrite Hov. cbn. rewrite Hvis. cbn.
  case_bool_decide as HE.
  - subst key. rewrite (hide_run w ov Hov). done.
  - cbn. case_bool_decide as HL.
    + subst key. rewrite bool_decide_eq_false_2 by done.
      by destruct (showIndex _ w) as [[[]|] ?].
    + cbn. case_bool_decide; [|done].
      by destruct (showIndex _ w) as [[[]|] ?].
Qed.

(** X8. In a reachable world a key other than Escape, ArrowLeft and
    ArrowRight changes nothing, whether the overlay is shown or not. *)
Theorem other_keys_ignored (key : string) (w : World) :
  Reachable w →
  key ≠ "Escape" → key ≠ "ArrowLeft" → key ≠ "ArrowRight" →
  step (KeyDown key) w = w.
Proof.
  intros HR HE HL Hr. rewrite step_KeyDown by done.
  destruct (overlay w) as [ov|] eqn:Hov; [|done].
  destruct (visible w) eqn:Hvis.
  - rewrite document_onkeydown_visible by done.
    by rewrite !bool_decide_eq_false_2.
  - unfold visible in Hvis. rewrite Hov in Hvis.
    by rewrite (document_onkeydown_closed key w ov).
Qed.

Lemma other_keys_ignored_witness :
  let w := run_events [Refresh vacation; AnchorClick primary_click 1] (init_world []) in
  step (KeyDown "Enter") w = w.
Proof.
  cbn zeta. apply other_keys_ignored; [|done..].
  apply Reachable_run_events, Reachable_init.
Defined.

Lemma hide_idempotent w : (hide (hide w).2).2 = (hide w).2.
Proof.
  destruct (hide_shape w) as [[Hov E] | (ov & Hov & E)]; rewrite E.
  - by rewrite E.
  - erewrite hide_run by done. cbn -[classList.remove].
    unfold set_currentIndex, set_root_classList, set_overlay,
      set_overlay_classList. cbn -[classList.remove].
    by rewrite !classList_remove_idemp.
Qed.

(** X9. The three ways to dismiss agree. Once the overlay exists, a click
    on the backdrop and a click on the close button each leave the world
    that [hide] leaves, and so does Escape while the overlay is shown; a
    click on the stage (image or caption) changes nothing, and dismissing
    twice is the same as dismissing once. *)
Theorem dismissals_agree (w : World) :
  Reachable w →
  has_overlay w →
  step (OverlayClick OnOverlay) w = (hide w).2 ∧
  step (OverlayClick OnCloseBtn) w = (hide w).2 ∧
  (visible w = true → step (KeyDown "Escape") w = (hide w).2) ∧
  step (OverlayClick OnStage) w = w ∧
  (hide (hide w).2).2 = (hide w).2.
Proof.
  intros HR [ov Hov]. unfold step at 1 2 4, dispatch_overlay_click.
  rewrite Hov. repeat split; try done.
  - intros Hvis. rewrite step_KeyDown by done.
    rewrite Hov, document_onkeydown_visible by done. done.
  - apply hide_idempotent.
Qed.

Lemma dismissals_agree_witness :
  let w := run_events [Refresh vacation; AnchorClick primary_click 1] (init_world []) in
  step (OverlayClick OnOverlay) w = (hide w).2 ∧
  step (OverlayClick OnCloseBtn) w = (hide w).2 ∧
  (visible w = true → step (KeyDown "Escape") w = (hide w).2) ∧
  step (OverlayClick OnStage) w = w ∧
  (hide (hide w).2).2 = (hide w).2.
Proof.
  cbn zeta. apply dismissals_agree.
  - apply Reachable_run_events, Reachable_init.
  - vm_compute. eauto.
Defined.

(** ** Navigation *)

Lemma wrap_index_mod N i : 0 < N → -1 ≤ i ≤ N → wrap_index N i = i mod N.
Proof.
  intros HN Hi. unfold wrap_index.
  destruct (decide (i = -1)) as [->|Hm].
  { rewrite <- (Z.mod_add (-1) 1 N) by lia. rewrite Z.mod_small by lia.
    repeat case_bool_decide; lia. }
  destruct (decide (i = N)) as [->|Hn].
  { rewrite Z.mod_same by lia. repeat case_bool_decide; lia. }
  rewrite Z.mod_small by lia. repeat case_bool_decide; lia.
Qed.

(** X10. Whatever integer [showIndex] is given in a reachable world with a
    current group, it completes with the current index inside the group
    and the overlay showing exactly the item at that index (its source as
    image, its caption as alternative text and caption); the overlay is
    neither shown nor hidden by it, and the table is left alone. *)
Theorem showIndex_lands (w : World) (g : string) (items : list GalleryItem) (i : Z) :
  Reachable w →
  currentGroup w = Some g →
  groups w !! g = Some items →
  ∃ w' ov' it,
    showIndex i w = (Normal (), w') ∧
    0 ≤ currentIndex w' < Z.of_nat (length items) ∧
    items !! Z.to_nat (currentIndex w') = Some it ∧
    overlay w' = Some ov' ∧
    img_src ov' = Some (JS.ToString (src it)) ∧
    img_alt ov' = title it ∧
    caption_textContent ov' = title it ∧
    visible w' = visible w ∧
    groups w' = groups w ∧
    currentGroup w' = currentGroup w.
Proof.
  intros HR Hg Hi.
  destruct (showIndex_current_index i w g items HR Hg Hi)
    as (ov & it & Hov & Hit & ->).
  eexists _, _, it. split; [done|].
  assert (0 < Z.of_nat (length items)) as HN.
  { pose proof (Inv_groups w (Reachable_Inv w HR) g items Hi).
    destruct items; [done | simpl; lia]. }
  split; [apply wrap_index_range, HN|].
  unfold visible. rewrite Hov. done.
Qed.

Lemma showIndex_lands_witness :
  let w := run_events [Refresh vacation; AnchorClick primary_click 1] (init_world []) in
  ∃ w' ov' it,
    showIndex 40 w = (Normal (), w') ∧
    0 ≤ currentIndex w' < Z.of_nat (length (item_of <$> vacation)) ∧
    (item_of <$> vacation) !! Z.to_nat (currentIndex w') = Some it ∧
    overlay w' = Some ov' ∧
    img_src ov' = Some (JS.ToString (src it)) ∧
    img_alt ov' = title it ∧
    caption_textContent ov' = title it ∧
    visible w' = visible w ∧
    groups w' = groups w ∧
    currentGroup w' = currentGroup w.
Proof.
  cbn zeta.
  apply (showIndex_lands
           (run_events [Refresh vacation; AnchorClick primary_click 1] (init_world []))
           "vacation" (item_of <$> vacation) 40).
  - apply Reachable_run_events, Reachable_init.
  - vm_compute. reflexivity.
  - vm_compute. reflexivity.
Defined.

Lemma step_nav w :
  has_overlay w →
  step (OverlayClick OnNextBtn) w = (showIndex (currentIndex w + 1) w).2 ∧
  step (OverlayClick OnPrevBtn) w = (showIndex (currentIndex w - 1) w).2.
Proof.
  intros [ov Hov]. unfold step, dispatch_overlay_click. by rewrite Hov.
Qed.

Lemma InSession_has_overlay w g items :
  Reachable w → InSession w g items → has_overlay w.
Proof.
  intros HR [Hg _ _]. apply (Inv_overlay w (Reachable_Inv w HR)). by rewrite Hg.
Qed.

Lemma showIndex_InSession w g items i :
  Reachable w → InSession w g items → -1 ≤ i ≤ Z.of_nat (length items) →
  InSession (showIndex i w).2 g items ∧
  currentIndex (showIndex i w).2 = i mod Z.of_nat (length items).
Proof.
  intros HR [Hg Hi Hc] Hrange.
  destruct (showIndex_current_index i w g items HR Hg Hi)
    as (ov & it & Hov & Hit & ->).
  cbn [snd]. rewrite wrap_index_mod by lia.
  split; [|done]. split; [done | done |]. cbn.
  apply Z.mod_pos_bound. lia.
Qed.

Lemma nav_InSession w g items :
  Reachable w → InSession w g items →
  let N := Z.of_nat (length items) in
  (InSession (step (OverlayClick OnNextBtn) w) g items ∧
   currentIndex (step (OverlayClick OnNextBtn) w) = (currentIndex w + 1) mod N) ∧
  (InSession (step (OverlayClick OnPrevBtn) w) g items ∧
   currentIndex (step (OverlayClick OnPrevBtn) w) = (currentIndex w - 1) mod N).
Proof.
  intros HR HS N.
  destruct (step_nav w (InSession_has_overlay w g items HR HS)) as [-> ->].
  pose proof (InSession_index w g items HS).
  split; apply showIndex_InSession; (done || lia).
Qed.

(** X11. While the overlay is shown, the arrow keys do exactly what the
    navigation buttons do, and with the current index inside the group
    they move it by one modulo the length of the group: ArrowRight to
    [(i + 1) mod N], ArrowLeft to [(i - 1) mod N]. *)
Theorem arrows_step_around (w : World) (g : string) (items : list GalleryItem) :
  Reachable w →
  visible w = true →
  InSession w g items →
  let N := Z.of_nat (length items) in
  step (KeyDown "ArrowRight") w = step (OverlayClick OnNextBtn) w ∧
  step (KeyDown "ArrowLeft") w = step (OverlayClick OnPrevBtn) w ∧
  currentIndex (step (KeyDown "ArrowRight") w) = (currentIndex w + 1) mod N ∧
  currentIndex (step (KeyDown "ArrowLeft") w) = (currentIndex w - 1) mod N.
Proof.
  intros HR Hvis HS N.
  pose proof (InSession_has_overlay w g items HR HS) as Hov.
  destruct (nav_InSession w g items HR HS) as [[_ Hn] [_ Hp]].
  assert (step (KeyDown "ArrowRight") w = step (OverlayClick OnNextBtn) w) as ER.
  { destruct (step_nav w Hov) as [-> _]. rewrite step_KeyDown by done.
    destruct Hov as [ov ->]. by rewrite document_onkeydown_visible. }
  assert (step (KeyDown "ArrowLeft") w = step (OverlayClick OnPrevBtn) w) as EL.
  { destruct (step_nav w Hov) as [_ ->]. rewrite step_KeyDown by done.
    destruct Hov as [ov ->]. by rewrite document_onkeydown_visible. }
  rewrite ER, EL. done.
Qed.

Lemma vacation_InSession :
  InSession
    (run_events [Refresh vacation; AnchorClick primary_click 1] (init_world []))
    "vacation" (item_of <$> vacation).
Proof.
  split; [vm_compute; reflexivity | vm_compute; reflexivity |].
  replace (currentIndex _) with 1 by (vm_compute; reflexivity). cbn. lia.
Qed.

Lemma arrows_step_around_witness :
  let w := run_events [Refresh vacation; AnchorClick primary_click 1] (init_world []) in
  step (KeyDown "ArrowRight") w = step (OverlayClick OnNextBtn) w ∧
  step (KeyDown "ArrowLeft") w = step (OverlayClick OnPrevBtn) w ∧
  currentIndex (step (KeyDown "ArrowRight") w)
    = (currentIndex w + 1) mod Z.of_nat (length (item_of <$> vacation)) ∧
  currentIndex (step (KeyDown "ArrowLeft") w)
    = (currentIndex w - 1) mod Z.of_nat (length (item_of <$> vacation)).
Proof.
  cbn zeta.
  apply (arrows_step_around _ "vacation" (item_of <$> vacation)).
  - apply Reachable_run_events, Reachable_init.
  - vm_compute. reflexivity.
  - apply vacation_InSession.
Defined.

Lemma next_iter w g items k :
  Reachable w → InSession w g items →
  let wk := Nat.iter k (step (OverlayClick OnNextBtn)) w in
  Reachable wk ∧ InSession wk g items ∧
  currentIndex wk = (currentIndex w + Z.of_nat k) mod Z.of_nat (length items).
Proof.
  intros HR HS. pose proof (InSession_index w g items HS) as Hc.
  induction k as [|k IH]; cbn zeta.
  - split; [done|]. split; [done|]. cbn. rewrite Z.add_0_r, Z.mod_small; lia.
  - rewrite Nat.iter_succ. destruct IH as (HRk & HSk & Hk).
    destruct (nav_InSession _ g items HRk HSk) as [[HS' Hi'] _].
    split; [by constructor|]. split; [done|].
    rewrite Hi', Hk, Zplus_mod_idemp_l. f_equal. lia.
Qed.

(** X12. Navigation is a cycle. With the current index inside the group,
    next followed by previous, and previous followed by next, come back to
    the same index, and as many nexts as the group has items come back to
    it as well. *)
Theorem navigation_cycles (w : World) (g : string) (items : list GalleryItem) :
  Reachable w →
  InSession w g items →
  let next := step (OverlayClick OnNextBtn) in
  let prev := step (OverlayClick OnPrevBtn) in
  currentIndex (prev (next w)) = currentIndex w ∧
  currentIndex (next (prev w)) = currentIndex w ∧
  currentIndex (Nat.iter (length items) next w) = currentIndex w.
Proof.
  intros HR HS next prev. pose proof (InSession_index w g items HS) as Hc.
  destruct (nav_InSession w g items HR HS) as [[HSn Hn] [HSp Hp]].
  destruct (nav_InSession (next w) g items (Reachable_step _ w HR) HSn)
    as [_ [_ Hpn]].
  destruct (nav_InSession (prev w) g items (Reachable_step _ w HR) HSp)
    as [[_ Hnp] _].
  split; [|split].
  - subst next prev. rewrite Hpn, Hn, Zminus_mod_idemp_l.
    replace (currentIndex w + 1 - 1) with (currentIndex w) by lia.
    apply Z.mod_small. lia.
  - subst next prev. rewrite Hnp, Hp, Zplus_mod_idemp_l.
    replace (currentIndex w - 1 + 1) with (currentIndex w) by lia.
    apply Z.mod_small. lia.
  - subst next.
    destruct (next_iter w g items (length items) HR HS) as (_ & _ & ->).
    rewrite <- (Z.mul_1_l (Z.of_nat (length items))) at 1.
    rewrite Z.mod_add by lia. apply Z.mod_small. lia.
Qed.

Lemma navigation_cycles_witness :
  let w := run_events [Refresh vacation; AnchorClick primary_click 1] (init_world []) in
  let next := step (OverlayClick OnNextBtn) in
  let prev := step (OverlayClick OnPrevBtn) in
  currentIndex (prev (next w)) = currentIndex w ∧
  currentIndex (next (prev w)) = currentIndex w ∧
  currentIndex (Nat.iter (length (item_of <$> vacation)) next w) = currentIndex w.
Proof.
  cbn zeta.
  apply (navigation_cycles _ "vacation" (item_of <$> vacation)).
  - apply Reachable_run_events, Reachable_init.
  - apply vacation_InSession.
Defined.

(** ** The overlay and the scroll lock *)

Lemma showIndex_keeps_visible i : keeps visible (showIndex i).
Proof.
  intros w. unfold visible.
  destruct (showIndex_shape i w) as (j & [-> | [-> | (ov & it & Hov & ->)]]);
    [done | done |]. cbn. by rewrite Hov.
Qed.

Lemma showIndex_keeps_scroll_locked i : keeps scroll_locked (showIndex i).
Proof. intros w. unfold scroll_locked. by rewrite showIndex_keeps_root_classList. Qed.

Lemma opened_visible group s w :
  visible (opened group s w) = true ∧ scroll_locked (opened group s w) = true.
Proof.
  unfold visible, scroll_locked. rewrite opened_overlay. unfold opened.
  cbn [root_classList set_root_classList overlay_classList set_overlay_classList].
  by rewrite !classList_add_contains.
Qed.

Lemma open_visible group s w :
  visible (open group s w).2 = true ∧ scroll_locked (open group s w).2 = true.
Proof.
  rewrite open_run, showIndex_keeps_visible, showIndex_keeps_scroll_locked.
  apply opened_visible.
Qed.

Lemma hide_hidden w :
  has_overlay w →
  visible (hide w).2 = false ∧ scroll_locked (hide w).2 = false ∧
  currentIndex (hide w).2 = -1.
Proof.
  intros [ov Hov]. rewrite (hide_run w ov Hov).
  split; [apply classList_remove_contains|].
  split; [apply classList_remove_contains | done].
Qed.

Lemma step_lock_follows_overlay ev w :
  lock_follows_overlay w → lock_follows_overlay (step ev w).
Proof.
  apply step_preserves; unfold lock_follows_overlay.
  - intros i w0. by rewrite showIndex_keeps_visible, showIndex_keeps_scroll_locked.
  - intros w0 Hw0. destruct (overlay w0) as [ov|] eqn:Hov.
    + destruct (hide_hidden w0) as (-> & -> & _); [by exists ov | done].
    + by rewrite hide_null.
  - intros g s w0 _. by destruct (open_visible g s w0) as [-> ->].
  - intros doc w0. unfold visible, scroll_locked.
    by destruct (prepareGroups_frame doc w0) as (_ & _ & -> & -> & _).
Qed.

(** X13. On a page whose root element does not carry the lock class of its
    own, the page scroll is locked exactly while the overlay is shown,
    after any sequence of events. *)
Theorem lock_iff_visible (root : list string) (evs : list Event) :
  classList.contains root "gd-lightbox-lock" = false →
  let w := run_events evs (init_world root) in
  visible w = scroll_locked w.
Proof.
  intros Hroot.
  assert (lock_follows_overlay (init_world root)) as Hinit.
  { unfold lock_follows_overlay, visible, scroll_locked. cbn. by rewrite Hroot. }
  cbn zeta. generalize dependent (init_world root). clear Hroot.
  induction evs as [|ev evs IH]; intros w Hw; [done|].
  apply (IH (step ev w)), step_lock_follows_overlay, Hw.
Qed.

Lemma lock_iff_visible_witness :
  let w := run_events [Refresh vacation; AnchorClick primary_click 1;
                       KeyDown "ArrowRight"] (init_world ["no-js"]) in
  visible w = scroll_locked w.
Proof.
  cbn zeta. apply (lock_iff_visible ["no-js"]). reflexivity.
Defined.

Lemma classList_remove_absent l tok :
  classList.contains l tok = false → classList.remove l tok = l.
Proof.
  unfold classList.contains, classList.remove. intros H%bool_decide_eq_false.
  induction l as [|t l IH]; [done|].
  rewrite filter_cons. destruct (decide (t ≠ tok)) as [_|E].
  - f_equal. apply IH. set_solver.
  - exfalso. apply H. apply dec_stable in E. set_solver.
Qed.

Lemma open_classes group s w :
  ∃ ov1, overlay (open group s w).2 = Some ov1 ∧
    overlay_classList ov1 =
      classList.add (overlay_classList (default fresh_overlay (overlay w))) "is-open" ∧
    root_classList (open group s w).2 =
      classList.add (root_classList w) "gd-lightbox-lock".
Proof.
  rewrite open_run.
  destruct (showIndex_shape (start_index group s w) (opened group s w))
    as (j & [-> | [-> | (ov & it & Hov & ->)]]).
  - eexists. split; [apply opened_overlay|]. split; [done|].
    unfold opened, built. cbn. by destruct (overlay w).
  - eexists. split; [apply opened_overlay|]. split; [done|].
    unfold opened, built. cbn. by destruct (overlay w).
  - rewrite opened_overlay in Hov. injection Hov as <-.
    eexists. split; [done|]. split; [done|].
    unfold opened, built. cbn. by destruct (overlay w).
Qed.

(** X14. [hide] undoes what [open] did to the class lists: from a world
    whose overlay is not shown and whose page is not locked, opening any
    group and then hiding gives back the root element's class list and the
    overlay's class list exactly as they were, with the index unset. *)
Theorem hide_undoes_open (w : World) (g : string) (s : option string) :
  visible w = false →
  scroll_locked w = false →
  let w2 := (hide (open g s w).2).2 in
  root_classList w2 = root_classList w ∧
  visible w2 = false ∧
  scroll_locked w2 = false ∧
  currentIndex w2 = -1 ∧
  ∃ ov2, overlay w2 = Some ov2 ∧
    overlay_classList ov2 =
      overlay_classList (default fresh_overlay (overlay w)).
Proof.
  intros Hvis Hlock. cbn zeta.
  destruct (open_classes g s w) as (ov1 & Hov1 & Hc1 & Hr1).
  destruct (hide_hidden (open g s w).2) as (Hv & Hl & Hi); [by exists ov1|].
  rewrite (hide_run _ ov1 Hov1) in *.
  cbn [snd root_classList set_currentIndex set_root_classList set_overlay
       overlay overlay_classList set_overlay_classList] in *.
  split; [|split; [done|split; [done|split; [done|]]]].
  - rewrite Hr1, classList_remove_add. by apply classList_remove_absent.
  - eexists. split; [done|].
    cbn [overlay_classList set_overlay_classList].
    rewrite Hc1, classList_remove_add. apply classList_remove_absent.
    unfold visible in Hvis. by destruct (overlay w).
Qed.

Lemma hide_undoes_open_witness :
  let w := run_events [Refresh vacation] (init_world ["no-js"; "dark"]) in
  let w2 := (hide (open "vacation" (Some "/c.jpg") w).2).2 in
  root_classList w2 = ["no-js"; "dark"] ∧
  visible w2 = false ∧
  scroll_locked w2 = false ∧
  currentIndex w2 = -1 ∧
  ∃ ov2, overlay w2 = Some ov2 ∧
    overlay_classList ov2 = overlay_classList fresh_overlay.
Proof.
  cbn zeta.
  apply (hide_undoes_open
           (run_events [Refresh vacation] (init_world ["no-js"; "dark"]))
           "vacation" (Some "/c.jpg")); reflexivity.
Defined.

(** ** Which anchors are indexed, and what a click on one opens *)

Lemma node_unique (l : list Element) a b :
  NoDup (node <$> l) → a ∈ l → b ∈ l → node a = node b → a = b.
Proof.
  intros Hnd Ha Hb E.
  assert (a ∈ filter (λ c, node c = node b) l) as Hin.
  { by apply list_elem_of_filter. }
  rewrite (filter_node_unique l b Hnd Hb) in Hin.
  by apply list_elem_of_singleton in Hin.
Qed.

Lemma qsa_elem_of doc a :
  a ∈ qsa doc ↔ is_Some (getAttribute a "data-lightbox") ∧ a ∈ doc.
Proof. unfold qsa. by rewrite list_elem_of_filter. Qed.

(** X15. An [a] element without the [data-lightbox] attribute is never
    indexed (the nodes of the document being distinct): [prepareGroups]
    gives it no listener, and no item of any group refers to it. *)
Theorem unmarked_anchor_never_indexed (doc : list Element) (w : World) (b : Element) :
  NoDup (node <$> doc) →
  b ∈ doc →
  getAttribute b "data-lightbox" = None →
  let w' := (prepareGroups doc w).2 in
  click_listeners w' !! node b = click_listeners w !! node b ∧
  ∀ g items it, groups w' !! g = Some items → it ∈ items → link it ≠ node b.
Proof.
  intros Hnd Hb Hattr. cbn zeta.
  assert (∀ a, a ∈ qsa doc → node a ≠ node b) as Hother.
  { intros a [Ha Hin]%qsa_elem_of E.
    rewrite (node_unique doc a b Hnd Hin Hb E), Hattr in Ha.
    by destruct Ha. }
  split.
  - rewrite prepareGroups_run. cbn [snd].
    rewrite foldl_indexed_click_listeners. unfold attach.
    rewrite (foldl_append_lookup node listener_of).
    destruct (filter (λ a, node a = node b) (qsa doc)) as [|a sel] eqn:E; [done|].
    assert (a ∈ filter (λ a, node a = node b) (qsa doc)) as Ha by (rewrite E; left).
    apply list_elem_of_filter in Ha as [Hab Ha]. by destruct (Hother a Ha).
  - intros g items it Hg Hit. rewrite prepareGroups_lookup in Hg.
    destruct (members g (qsa doc)) as [|a0 sel] eqn:E; [done|].
    assert (items = item_of <$> (a0 :: sel)) as -> by congruence.
    apply list_elem_of_fmap in Hit as (a & -> & Ha).
    apply Hother. rewrite <- E in Ha. unfold members in Ha.
    by apply list_elem_of_filter in Ha as [_ Ha].
Qed.

Lemma unmarked_anchor_never_indexed_witness :
  let doc := vacation ++ [plain_link] in
  let w' := (prepareGroups doc (init_world [])).2 in
  click_listeners w' !! node plain_link = None ∧
  ∀ g items it, groups w' !! g = Some items → it ∈ items →
    link it ≠ node plain_link.
Proof.
  cbn zeta.
  apply (unmarked_anchor_never_indexed (vacation ++ [plain_link])
           (init_world []) plain_link).
  - apply (bool_decide_unpack _). vm_compute. exact I.
  - apply (bool_decide_unpack _). vm_compute. exact I.
  - reflexivity.
Defined.





(** X17. An overlay that was opened on a group without items can still be
    dismissed: in a reachable world where the overlay is shown and the
    current group has no items, the arrow keys and the navigation buttons
    change nothing, and Escape hides the overlay, unlocks the page and
    unsets the index. *)
Theorem empty_session_recovers (w : World) :
  Reachable w →
  visible w = true →
  current_items w = [] →
  step (KeyDown "ArrowLeft") w = w ∧
  step (KeyDown "ArrowRight") w = w ∧
  step (OverlayClick OnPrevBtn) w = w ∧
  step (OverlayClick OnNextBtn) w = w ∧
  visible (step (KeyDown "Escape") w) = false ∧
  scroll_locked (step (KeyDown "Escape") w) = false ∧
  currentIndex (step (KeyDown "Escape") w) = -1.
Proof.
  intros HR Hvis Hempty.
  assert (has_overlay w) as Hov.
  { unfold visible in Hvis. unfold has_overlay. destruct (overlay w); [eauto | done]. }
  destruct (step_nav w Hov) as [-> ->].
  rewrite !step_KeyDown by done. destruct Hov as [ov Hov]. rewrite Hov.
  rewrite !document_onkeydown_visible by done. cbn.
  rewrite !showIndex_noop by done.
  destruct (hide_hidden w) as (Hv & Hl & Hi); [by exists ov|]. done.
Qed.

Lemma empty_session_recovers_witness :
  let w := run_events [Refresh two_groups; Refresh [anchor 0 "x" "/x.jpg"];
                       AnchorClick primary_click 1] (init_world []) in
  step (KeyDown "ArrowLeft") w = w ∧
  step (KeyDown "ArrowRight") w = w ∧
  step (OverlayClick OnPrevBtn) w = w ∧
  step (OverlayClick OnNextBtn) w = w ∧
  visible (step (KeyDown "Escape") w) = false ∧
  scroll_locked (step (KeyDown "Escape") w) = false ∧
  currentIndex (step (KeyDown "Escape") w) = -1.
Proof.
  cbn zeta. apply empty_session_recovers.
  - apply Reachable_run_events, Reachable_init.
  - vm_compute. reflexivity.
  - vm_compute. reflexivity.
Defined.

(** * Clicks that bubble *)

Lemma run_events_cons ev evs w :
  run_events (ev :: evs) w = run_events evs (step ev w).
Proof. done. Qed.





Lemma dispatch_click_keeps_click_listeners e n w :
  click_listeners (dispatch_click e n w) = click_listeners w.
Proof.
  apply (listeners_keep click_listeners) with (ev := AnchorClick e n);
    eauto with keeps.
Qed.


Lemma prepareGroups_listeners_unmarked doc w b :
  NoDup (node <$> doc) → b ∈ doc → declared b = None →
  click_listeners (prepareGroups doc w).2 !! node b = click_listeners w !! node b.
Proof.
  intros Hnd Hb Hnone. rewrite prepareGroups_run. cbn [snd].
  rewrite foldl_indexed_click_listeners. unfold attach.
  rewrite (foldl_append_lookup node listener_of).
  destruct (filter (λ a, node a = node b) (qsa doc)) as [|a sel] eqn:E; [done|].
  assert (a ∈ filter (λ a, node a = node b) (qsa doc)) as Ha by (rewrite E; left).
  apply list_elem_of_filter in Ha as [Hab [Hattr Ha]%qsa_elem_of].
  rewrite (node_unique doc a b Hnd Ha Hb Hab) in Hattr.
  unfold declared in Hnone. destruct Hattr as [name Hname].
  by rewrite Hname in Hnone.
Qed.

(** The listeners an anchor of the document carries after [k] indexing
    runs from the initial page. *)
Lemma listeners_after_runs doc k root b :
  NoDup (node <$> doc) → b ∈ doc →
  default []
    (click_listeners
       (Nat.iter k (λ w, (prepareGroups doc w).2) (init_world root)) !! node b) =
  match declared b with
  | Some _ => replicate k (listener_of b)
  | None => []
  end.
Proof.
  intros Hnd Hb. destruct (declared b) as [g|] eqn:Hd.
  - apply declared_Some in Hd as [_ Hattr].
    rewrite refreshes_listeners; [done | done |]. by apply qsa_elem_of.
  - induction k as [|k IH]; [done|].
    by rewrite Nat.iter_succ, prepareGroups_listeners_unmarked.
Qed.

Lemma calls_of_listeners k b :
  (λ h, (cl_group h, cl_src h)) <$>
    match declared b with
    | Some _ => replicate k (listener_of b)
    | None => []
    end = calls_of k b.
Proof.
  unfold calls_of. destruct (declared b) as [g|] eqn:Hd; [|done].
  apply declared_Some in Hd as [<- _]. by rewrite fmap_replicate.
Qed.

Lemma bubbling_click_open_calls k e (bs : list Element) w :
  unmodified_primary e →
  Forall (λ b, default [] (click_listeners w !! node b) =
               match declared b with
               | Some _ => replicate k (listener_of b)
               | None => []
               end) bs →
  open_calls (run_events (bubbling_click e (node <$> bs)) w) =
    open_calls w ++ concat (calls_of k <$> bs).
Proof.
  intros He Hbs. revert w Hbs.
  induction bs as [|b bs IH]; intros w Hbs.
  - cbn. by rewrite app_nil_r.
  - apply Forall_cons in Hbs as [Hb Hbs].
    unfold bubbling_click. rewrite !fmap_cons, run_events_cons.
    fold (bubbling_click e (node <$> bs)).
    rewrite IH.
    + unfold step, dispatch_click.
      rewrite run_anchor_onclick_open_calls, Hb, calls_of_listeners by done.
      by rewrite <- app_assoc.
    + unfold step. eapply Forall_impl; [exact Hbs|]. cbn. intros b' Hb'.
      by rewrite dispatch_click_keeps_click_listeners.
Qed.

(** C10. On a document whose nodes are distinct, every run of
    [prepareGroups] appends one listener to those of each anchor it
    matches, and removes none; after [k] runs from the initial page such an
    anchor carries [k] listeners, and on one click with the primary button
    and no modifier its own listeners call [open] [k] times with its group
    and link target. The listener does not stop the click, which goes on to
    the anchors around the clicked one: each of those that carries the
    attribute adds [k] calls with its own group and link target, so that the
    click makes [k] calls in all when none of them does. *)
Theorem listeners_accumulate (doc : list Element) (a : Element) (k : nat)
    (root : list string) (e : MouseEvent) (ancestors : list Element) :
  NoDup (node <$> doc) →
  a ∈ qsa doc →
  unmodified_primary e →
  Forall (λ b, b ∈ doc) ancestors →
  let refresh := λ w, (prepareGroups doc w).2 in
  let wk := Nat.iter k refresh (init_world root) in
  let own := replicate k (declared_group a, getAttribute a "href") in
  let click := bubbling_click e (node a :: (node <$> ancestors)) in
  (∀ w, click_listeners (refresh w) !! node a =
          Some (default [] (click_listeners w !! node a) ++ [listener_of a])) ∧
  default [] (click_listeners wk !! node a) = replicate k (listener_of a) ∧
  open_calls (dispatch_click e (node a) wk) = own ∧
  open_calls (run_events click wk) = own ++ concat (calls_of k <$> ancestors) ∧
  (Forall (λ b, getAttribute b "data-lightbox" = None) ancestors →
   open_calls (run_events click wk) = own).
Proof.
  intros Hnd Ha He Hanc refresh wk own click.
  assert (a ∈ doc) as Hdoc by (by apply qsa_elem_of in Ha as [_ ?]).
  assert (declared a = Some (declared_group a)) as Hd.
  { apply declared_Some. split; [apply group_of_declared|].
    by apply qsa_elem_of in Ha as [? _]. }
  assert (open_calls wk = []) as Hlog.
  { subst wk refresh. induction k as [|k IH]; [done|].
    by rewrite Nat.iter_succ, prepareGroups_open_calls. }
  assert (open_calls (run_events click wk) =
          own ++ concat (calls_of k <$> ancestors)) as Hclick.
  { subst click. change (node a :: (node <$> ancestors))
      with (node <$> a :: ancestors).
    rewrite (bubbling_click_open_calls k), Hlog; [|done|].
    - rewrite fmap_cons. cbn [concat app]. unfold calls_of at 1. by rewrite Hd.
    - apply Forall_cons. split; [by apply listeners_after_runs|].
      eapply Forall_impl; [exact Hanc|]. cbn. intros b Hb.
      by apply listeners_after_runs. }
  assert (default [] (click_listeners wk !! node a) = replicate k (listener_of a))
    as Hk.
  { subst wk refresh. by rewrite refreshes_listeners. }
  split; [|split; [done|split; [|split; [done|]]]].
  - intros w. by apply prepareGroups_listeners.
  - unfold dispatch_click.
    rewrite Hk, run_anchor_onclick_open_calls, Hlog by done.
    cbn [app]. rewrite fmap_replicate. cbn. by rewrite group_of_declared.
  - intros Hplain. rewrite Hclick.
    assert (concat (calls_of k <$> ancestors) = []) as ->; [|by rewrite app_nil_r].
    clear -Hplain. induction Hplain as [|b bs Hb _ IH]; [done|].
    rewrite fmap_cons. cbn [concat]. rewrite IH.
    unfold calls_of, declared. by rewrite Hb.
Qed.

Lemma listeners_accumulate_witness :
  let wk := Nat.iter 2 (λ w, (prepareGroups two_groups w).2) (init_world []) in
  open_calls (dispatch_click primary_click 1 wk) =
    [("y", Some "/y.jpg"); ("y", Some "/y.jpg")] ∧
  open_calls (run_events (bubbling_click primary_click [1; 0]%nat) wk) =
    [("y", Some "/y.jpg"); ("y", Some "/y.jpg");
     ("x", Some "/x.jpg"); ("x", Some "/x.jpg")].
Proof.
  cbn zeta.
  destruct (listeners_accumulate two_groups (anchor 1 "y" "/y.jpg") 2 []
              primary_click [anchor 0 "x" "/x.jpg"])
    as (_ & _ & Hown & Hall & _).
  - apply (bool_decide_unpack _). vm_compute. exact I.
  - apply (bool_decide_unpack _). vm_compute. exact I.
  - repeat split.
  - apply (bool_decide_unpack _). vm_compute. exact I.
  - split; [exact Hown | exact Hall].
Defined.



